(** * cluster-diagnosis: the check engine and the pod status sampler of utils.py

    A shallow embedding of [utils.py]: the classes [ModuleCheck] and
    [ModuleCheckGroup], the two kubectl queries [get_pod_status] and
    [get_pods_status_iterator_by_labels], and the sampler
    [get_pods_summarized_status_iterator].

    Python's effects are explicit.  A computation is a function from a
    world to an outcome and a new world; the outcome is a value or a raised
    exception.  The world holds the cluster as seen through
    [subprocess.check_output] and the chronological list of everything the
    program did to the outside: log records, writes to stdout, sleeps and
    shell commands. *)

From Stdlib Require Import String Ascii ZArith List Bool Lia.
From stdpp Require Import base list.
Import ListNotations.
Local Open Scope string_scope.
Set Warnings "-register-all".

(** ** Text *)

Definition DQ : string := String (ascii_of_nat 34) EmptyString.
Definition NL : string := String (ascii_of_nat 10) EmptyString.

(** [s.split(sep)] for a one-character separator: every occurrence cuts,
    so the result is never empty and may hold empty fields. *)
Fixpoint split (sep : ascii) (s : string) : list string :=
  match s with
  | EmptyString => [EmptyString]
  | String c rest =>
      if Ascii.eqb c sep then EmptyString :: split sep rest
      else match split sep rest with
           | [] => [String c EmptyString]
           | field :: fields => String c field :: fields
           end
  end.

(** The line boundaries of [str.splitlines] among the code points below
    256: LF, VT, FF, CR, FS, GS, RS and NEL.  A character of the model is
    one code point of the decoded text; U+2028 and U+2029 are outside it. *)
Definition is_line_boundary (c : ascii) : bool :=
  let n := nat_of_ascii c in
  (Nat.eqb n 10 || Nat.eqb n 11 || Nat.eqb n 12 || Nat.eqb n 13
   || Nat.eqb n 28 || Nat.eqb n 29 || Nat.eqb n 30 || Nat.eqb n 133)%bool.

(** [after_cr] tells that the previous character was a CR, so that a LF
    here belongs to the same boundary. *)
Fixpoint splitlines_from (after_cr : bool) (s : string) : list string :=
  match s with
  | EmptyString => []
  | String c rest =>
      if (after_cr && Nat.eqb (nat_of_ascii c) 10)%bool then
        splitlines_from false rest
      else if is_line_boundary c then
        EmptyString :: splitlines_from (Nat.eqb (nat_of_ascii c) 13) rest
      else match splitlines_from false rest with
           | [] => [String c EmptyString]
           | line :: lines => String c line :: lines
           end
  end.

Definition splitlines (s : string) : list string := splitlines_from false s.

(** [sep.join(items)] *)
Fixpoint join (sep : string) (items : list string) : string :=
  match items with
  | [] => EmptyString
  | [x] => x
  | x :: rest => x ++ sep ++ join sep rest
  end.

(** [x in items] on a list of strings *)
Definition contains (items : list string) (x : string) : bool :=
  existsb (String.eqb x) items.

(** ** Exceptions, log records and events *)

(** A [str.format] call that is only logged or carried by an exception is
    kept as its template and its arguments. *)
Inductive fmt_arg :=
| AStr (s : string)
| AInt (z : Z)
| AList (l : list string).

Record message := Fmt { template : string; args : list fmt_arg }.

Inductive exn :=
| RuntimeError (msg : message)
| CalledProcessError (returncode : Z) (output : string)
| AttributeError
| UnboundLocalError
| IndexError
| TypeError
| UnicodeDecodeError
| OtherError (cls : string).

Inductive result (A : Type) :=
| Ok (a : A)
| Raise (e : exn).
Arguments Ok {A} a.
Arguments Raise {A} e.

Inductive level := INFO | WARNING | ERROR.

Inductive event :=
| Log (lvl : level) (m : message)
| StdoutWrite (s : string)
| StdoutFlush
| Sleep (secs : Z)
| CheckOutput (cmd : string).

(** ** The cluster behind [subprocess.check_output]

    A shell command exits with code 0 or with another code; it may change
    the state of the cluster, and the same command may answer differently
    later.  The bytes that a command printed before exiting with code 0
    are given by what [decode()] makes of them: the text [text], or
    nothing, when [decode()] rejects them. *)
Inductive cmd_outcome :=
| Printed (text : string)
| Undecodable
| Failed (returncode : Z) (output : string).

Class Shell (C : Type) := shell : string -> C -> cmd_outcome * C.

Record World (C : Type) := mkWorld { cluster : C; events : list event }.
Arguments mkWorld {C} cluster events.
Arguments cluster {C} w.
Arguments events {C} w.

Definition M (C A : Type) : Type := World C -> result A * World C.

Definition ret {C A} (a : A) : M C A := fun w => (Ok a, w).

Definition raise {C A} (e : exn) : M C A := fun w => (Raise e, w).

Definition bind {C A B} (c : M C A) (k : A -> M C B) : M C B :=
  fun w => match c w with
           | (Ok a, w') => k a w'
           | (Raise e, w') => (Raise e, w')
           end.

(** The outcome of [c] as a value: what a [try] statement sees. *)
Definition attempt {C A} (c : M C A) : M C (result A) :=
  fun w => let (r, w') := c w in (Ok r, w').

Declare Scope py_scope.
Delimit Scope py_scope with py.
Notation "x <- c ;; k" := (bind c (fun x => k))
  (at level 100, c at next level, right associativity) : py_scope.
Notation "c ;; k" := (bind c (fun _ => k))
  (at level 100, right associativity) : py_scope.
Local Open Scope py_scope.

Definition emit {C} (e : event) : M C unit :=
  fun w => (Ok tt, mkWorld (cluster w) (events w ++ [e])).

Definition log_info {C} (m : message) : M C unit := emit (Log INFO m).
Definition log_error {C} (m : message) : M C unit := emit (Log ERROR m).
Definition stdout_write {C} (s : string) : M C unit := emit (StdoutWrite s).
Definition stdout_flush {C} : M C unit := emit StdoutFlush.
Definition time_sleep {C} (secs : Z) : M C unit := emit (Sleep secs).

(** [subprocess.check_output(cmd, shell=True)] followed by the [decode()]
    of its result.  In every function of the file [decode()] is the
    statement that follows the [try] around [check_output]: the
    [CalledProcessError] is what the [except] clause sees, and the
    [UnicodeDecodeError] of [decode()] is not caught. *)
Definition check_output {C} `{Shell C} (cmd : string) : M C string :=
  fun w =>
    let (o, c') := shell cmd (cluster w) in
    let w' := mkWorld c' (events w ++ [CheckOutput cmd]) in
    match o with
    | Printed text => (Ok text, w')
    | Undecodable => (Raise UnicodeDecodeError, w')
    | Failed returncode output => (Raise (CalledProcessError returncode output), w')
    end.

(** [l[i]] *)
Definition index {C} (l : list string) (i : nat) : M C string :=
  match nth_error l i with
  | Some x => ret x
  | None => raise IndexError
  end.

Definition STATUS_RUNNING : string := "Running".
Definition STATUS_NOT_RUNNING : string := "Not Running".

(** ** ModuleCheck and ModuleCheckGroup *)

(** What a check callback may return; [if not v] looks at its truth value. *)
Inductive PyVal :=
| PyNone
| PyBool (b : bool)
| PyInt (z : Z)
| PyStr (s : string)
| PyList (l : list PyVal).

Definition truthy (v : PyVal) : bool :=
  match v with
  | PyNone => false
  | PyBool b => b
  | PyInt z => negb (Z.eqb z 0)
  | PyStr s => negb (String.eqb s EmptyString)
  | PyList l => match l with [] => false | _ => true end
  end.

(** An object with a [run] method: a [ModuleCheck] or a
    [ModuleCheckGroup].  The constructors are the two [__init__]; a group's
    [checks] is [None] when the argument is left out. *)
Inductive Runnable (C : Type) :=
| ModuleCheck (summary : string) (check_cb : M C PyVal)
| ModuleCheckGroup (name : string) (checks : option (list (Runnable C))).
Arguments ModuleCheck {C} summary check_cb.
Arguments ModuleCheckGroup {C} name checks.

Definition success_cb {C} : M C unit :=
  log_info (Fmt ("-- Success --" ++ NL) []).

Definition failure_cb {C} : M C unit :=
  log_error (Fmt ("-- Failure --" ++ NL) []).

Definition get_title {C} (self : Runnable C) : string :=
  match self with
  | ModuleCheck summary _ => "-- " ++ summary ++ " --"
  | ModuleCheckGroup name _ => "== " ++ name ++ " =="
  end.

(** The loop of [ModuleCheckGroup.run] over the members, [run_member]
    being the members' [run]. *)
Definition for_checks {C} (run_member : Runnable C -> M C bool)
  : list (Runnable C) -> M C bool :=
  fix loop (checks : list (Runnable C)) : M C bool :=
    match checks with
    | [] => ret true
    | check :: rest =>
        passed <- run_member check ;;
        if negb passed then ret false else loop rest
    end.

Fixpoint run {C} (self : Runnable C) : M C bool :=
  match self with
  | ModuleCheck _ check_cb =>
      log_info (Fmt (get_title self) []) ;;
      verdict <- check_cb ;;
      if negb (truthy verdict) then (failure_cb ;; ret false)
      else (success_cb ;; ret true)
  | ModuleCheckGroup _ checks =>
      log_info (Fmt (get_title self) []) ;;
      match checks with
      | None => raise TypeError
      | Some members => for_checks run members
      end
  end.

(** [ModuleCheckGroup.add] mutates the group and returns it, so the groups
    live in a heap and [self] is an address.  The list of a group and its
    members are stored by value: a group owns its list.  A list that a
    group shares with its builder or with another group, and a member
    that is changed after it was added, are outside this model.  An
    address that holds no group has no [add] method. *)
Definition add {C} (self : nat) (check : Runnable C) (heap : list (Runnable C))
  : result nat * list (Runnable C) :=
  match heap !! self with
  | Some (ModuleCheckGroup name checks) =>
      let checks := match checks with None => [] | Some members => members end in
      (Ok self, <[self := ModuleCheckGroup name (Some (checks ++ [check])%list)]> heap)
  | _ => (Raise AttributeError, heap)
  end.

(** [ModuleCheckGroup(name)]: the [checks] argument left out. *)
Definition default_group {C} (name : string) : Runnable C :=
  ModuleCheckGroup name None.

(** [self.checks] of a group *)
Definition group_checks {C} (self : Runnable C) : option (list (Runnable C)) :=
  match self with
  | ModuleCheck _ _ => None
  | ModuleCheckGroup _ checks => checks
  end.

(** [run] of the object at an address *)
Definition run_at {C} (self : nat) (heap : list (Runnable C)) : M C bool :=
  match heap !! self with
  | Some object => run object
  | None => raise AttributeError
  end.

(** ** PodStatus and the two kubectl queries *)

Record PodStatus := mkPodStatus {
  name : string;
  ready_status : string;
  status : string;
  node_name : string;
  namespace : string
}.

Definition get_pod_status_cmd (full_pod_name : string) : string :=
  "kubectl get pods --all-namespaces -o wide "
  ++ "| awk 'BEGIN{offset=0}"
  ++ "/NOMINATED/{offset=1}"
  ++ "/" ++ full_pod_name ++ "/{print $2 " ++ DQ ++ " " ++ DQ ++ " $3 "
  ++ DQ ++ " " ++ DQ ++ " $4 " ++ DQ ++ " " ++ DQ ++ " $(NF-offset) "
  ++ DQ ++ " " ++ DQ ++ " $1}'".

(** [get_pod_status]: [None] is the bare [return] after a failed command,
    [RuntimeError] the pod that is not in the output. *)
Definition get_pod_status {C} `{Shell C} (full_pod_name : string)
  : M C (option PodStatus) :=
  let cmd := get_pod_status_cmd full_pod_name in
  encoded_output <- attempt (check_output cmd) ;;
  match encoded_output with
  | Raise (CalledProcessError returncode output) =>
      log_error (Fmt "command to get status of {} has failed. error code: {} {}"
                     [AStr full_pod_name; AInt returncode; AStr output]) ;;
      ret None
  | Raise e => raise e
  | Ok output =>
      if String.eqb output EmptyString then
        log_error (Fmt "pod {} is not running on the cluster" [AStr full_pod_name]) ;;
        raise (RuntimeError
                 (Fmt "pod {} is not running on the cluster" [AStr full_pod_name]))
      else
        let split_line := split " " output in
        f0 <- index split_line 0 ;;
        f1 <- index split_line 1 ;;
        f2 <- index split_line 2 ;;
        f3 <- index split_line 3 ;;
        f4 <- index split_line 4 ;;
        ret (Some (mkPodStatus f0 f1 f2 f3 f4))
  end.

Definition selector_cmd (label_selector : string) : string :=
  "kubectl get pods --all-namespaces -o wide"
  ++ " --selector=" ++ label_selector ++ " -o=jsonpath='{range .items[*]}"
  ++ "{@.metadata.name}{" ++ DQ ++ " " ++ DQ ++ "}"
  ++ "{@.status.containerStatuses[0].ready}{" ++ DQ ++ " " ++ DQ ++ "}"
  ++ "{@.status.phase}{" ++ DQ ++ " " ++ DQ ++ "}"
  ++ "{@.spec.nodeName}{" ++ DQ ++ " " ++ DQ ++ "}"
  ++ "{@.metadata.namespace}{" ++ DQ ++ "\n" ++ DQ ++ "}'".

Definition host_ip_filter_cmd (host_ip_filter : list string) : string :=
  "kubectl get pods --no-headers "
  ++ "-o=custom-columns=NAME:.metadata.name,"
  ++ "HOSTIP:.status.hostIP --all-namespaces | grep -E " ++ DQ
  ++ join "|" host_ip_filter ++ DQ ++ " | "
  ++ "awk '{print $1}'".

(** A generator as its consumer sees it: the values it yields, in order,
    and how it ends, by returning ([None]) or by raising. *)
Record generator (A : Type) := mkGen { yields : list A; finish : option exn }.
Arguments mkGen {A} yields finish.
Arguments yields {A} g.
Arguments finish {A} g.

Definition empty_gen {A} : generator A := mkGen [] None.

(** One turn of the final loop of [get_pods_status_iterator_by_labels]:
    [None] is the [continue]. *)
Definition pod_of_line (filtered_pod_list : list string) (line : string)
  : result (option PodStatus) :=
  let split_line := split " " line in
  match split_line with
  | [] => Raise IndexError
  | f0 :: _ =>
      if negb (contains filtered_pod_list f0) then Ok None
      else match split_line with
           | f0 :: f1 :: f2 :: f3 :: f4 :: _ => Ok (Some (mkPodStatus f0 f1 f2 f3 f4))
           | _ => Raise IndexError
           end
  end.

Fixpoint pods_of_lines (filtered_pod_list lines : list string)
  : generator PodStatus :=
  match lines with
  | [] => empty_gen
  | line :: rest =>
      match pod_of_line filtered_pod_list line with
      | Ok None => pods_of_lines filtered_pod_list rest
      | Ok (Some pod_status) =>
          let g := pods_of_lines filtered_pod_list rest in
          mkGen (pod_status :: yields g) (finish g)
      | Raise e => mkGen [] (Some e)
      end
  end.

(** [get_pods_status_iterator_by_labels], run by a [for] statement: the
    two commands are issued before the first value is taken, and the lines
    are parsed between the turns of the consumer's loop.  After a failed
    filter command the function goes on and reads [filter_output], which
    was never bound. *)
Definition get_pods_status_iterator_by_labels {C} `{Shell C}
  (label_selector : string) (host_ip_filter : list string) (must_exist : bool)
  : M C (generator PodStatus) :=
  let cmd := selector_cmd label_selector in
  encoded_output <- attempt (check_output cmd) ;;
  match encoded_output with
  | Raise (CalledProcessError returncode output) =>
      log_error (Fmt "command to get status of {} has failed. error code: {} {}"
                     [AStr label_selector; AInt returncode; AStr output]) ;;
      ret empty_gen
  | Raise e => raise e
  | Ok output =>
      if String.eqb output EmptyString then
        (if must_exist
         then log_error (Fmt "no pods with labels {} are running on the cluster"
                             [AStr label_selector])
         else ret tt) ;;
        ret empty_gen
      else
        filter_output <- attempt (check_output (host_ip_filter_cmd host_ip_filter)) ;;
        match filter_output with
        | Raise (CalledProcessError returncode output) =>
            log_error (Fmt "command to list filtered pods has failed. error code: {} {}"
                           [AInt returncode; AStr output]) ;;
            raise UnboundLocalError
        | Raise e => raise e
        | Ok filter_output =>
            if String.eqb filter_output EmptyString then
              (if must_exist
               then log_error
                      (Fmt "No output because all the pods were filtered out by the node ip filter {}."
                           [AList host_ip_filter])
               else ret tt) ;;
              ret empty_gen
            else
              let filtered_pod_list := splitlines filter_output in
              ret (pods_of_lines filtered_pod_list (splitlines output))
        end
  end.

(** ** The sampler *)

(** [pod_status_map]: a dict in insertion order; assigning to a key that
    is present keeps its place. *)
Definition dict := list (string * PodStatus).

Fixpoint dict_set (k : string) (v : PodStatus) (d : dict) : dict :=
  match d with
  | [] => [(k, v)]
  | (k', v') :: rest =>
      if String.eqb k k' then (k, v) :: rest else (k', v') :: dict_set k v rest
  end.

Fixpoint dict_get (k : string) (d : dict) : option PodStatus :=
  match d with
  | [] => None
  | (k', v') :: rest => if String.eqb k k' then Some v' else dict_get k rest
  end.

(** The [try] statement of the sampler: the verdict for one pod. *)
Definition status_verdict_of {C} `{Shell C} (pod_name : string) : M C string :=
  temp_pod_status <- attempt (get_pod_status pod_name) ;;
  match temp_pod_status with
  | Ok (Some temp) =>
      if negb (String.eqb (status temp) STATUS_RUNNING)
      then ret (status temp)
      else ret STATUS_RUNNING
  | Ok None => raise AttributeError
  | Raise (RuntimeError _) => ret STATUS_NOT_RUNNING
  | Raise e => raise e
  end.

(** The record that the sampler stores: the pod as the selector query
    gave it, with the verdict as its status. *)
Definition with_verdict (pod_status : PodStatus) (status_verdict : string)
  : PodStatus :=
  mkPodStatus (name pod_status) (ready_status pod_status) status_verdict
    (node_name pod_status) (namespace pod_status).

(** The body of the inner [for]. *)
Definition observe {C} `{Shell C} (pod_status : PodStatus) (pod_status_map : dict)
  : M C dict :=
  status_verdict <- status_verdict_of (name pod_status) ;;
  ret (dict_set (name pod_status) (with_verdict pod_status status_verdict)
         pod_status_map).

Fixpoint for_pods {C} `{Shell C} (pods : list PodStatus) (pod_status_map : dict)
  : M C dict :=
  match pods with
  | [] => ret pod_status_map
  | pod_status :: rest =>
      pod_status_map' <- observe pod_status pod_status_map ;;
      for_pods rest pod_status_map'
  end.

(** One turn of [for attempt in range(0, 5)]. *)
Definition round {C} `{Shell C} (label_selector : string) (pod_status_map : dict)
  : M C dict :=
  stdout_write "." ;;
  stdout_flush ;;
  pods <- get_pods_status_iterator_by_labels label_selector [] false ;;
  pod_status_map' <- for_pods (yields pods) pod_status_map ;;
  match finish pods with Some e => raise e | None => ret tt end ;;
  time_sleep 2 ;;
  ret pod_status_map'.

Fixpoint rounds {C} `{Shell C} (attempts : nat) (label_selector : string)
  (pod_status_map : dict) : M C dict :=
  match attempts with
  | O => ret pod_status_map
  | S attempts' =>
      pod_status_map' <- round label_selector pod_status_map ;;
      rounds attempts' label_selector pod_status_map'
  end.

(** [get_pods_summarized_status_iterator], taken to its end by the
    caller: nothing is yielded before the five rounds are over. *)
Definition get_pods_summarized_status_iterator {C} `{Shell C}
  (label_selector : string) : M C (list PodStatus) :=
  pod_status_map <- rounds 5 label_selector [] ;;
  stdout_write NL ;;
  stdout_flush ;;
  ret (map snd pod_status_map).

(** ** A scripted cluster

    The answers of the shell, one per command, in the order the commands
    are issued; a shell with no answer left fails. *)
Definition script := list cmd_outcome.

#[export] Instance script_shell : Shell script :=
  fun _ answers =>
    match answers with
    | [] => (Failed 1 EmptyString, [])
    | answer :: rest => (answer, rest)
    end.

Definition start (answers : script) : World script := mkWorld answers [].

(** The start of a round: the progress dot, then the selector query. *)
Definition round_head {C} `{Shell C} (label_selector : string)
  : M C (generator PodStatus) :=
  stdout_write "." ;; stdout_flush ;;
  get_pods_status_iterator_by_labels label_selector [] false.

(** The pods that the selector query hands to the sampler in round [i]
    (counted from 0) of the session started in [w]; none when the session
    does not get that far. *)
Definition pods_seen {C} `{Shell C} (label_selector : string) (w : World C)
  (i : nat) : list PodStatus :=
  match rounds i label_selector [] w with
  | (Ok _, wi) =>
      match round_head label_selector wi with
      | (Ok pods, _) => yields pods
      | (Raise _, _) => []
      end
  | (Raise _, _) => []
  end.

(** The world in which round [i] turns to the pod that follows the pods
    [before] in the selector's answer. *)
Definition world_seen {C} `{Shell C} (label_selector : string) (w : World C)
  (i : nat) (before : list PodStatus) : option (World C) :=
  match rounds i label_selector [] w with
  | (Ok pod_status_map, wi) =>
      match round_head label_selector wi with
      | (Ok _, wg) =>
          match for_pods before pod_status_map wg with
          | (Ok _, wp) => Some wp
          | (Raise _, _) => None
          end
      | (Raise _, _) => None
      end
  | (Raise _, _) => None
  end.

(** The state in which round [i] is once it has dealt with the pods
    [dealt], the first pods of the selector's answer: the dict and the
    world, or the exception that ended the session there. *)
Definition state_seen {C} `{Shell C} (label_selector : string) (w : World C)
  (i : nat) (dealt : list PodStatus) : option (result dict * World C) :=
  match rounds i label_selector [] w with
  | (Ok pod_status_map, wi) =>
      match round_head label_selector wi with
      | (Ok _, wg) => Some (for_pods dealt pod_status_map wg)
      | (Raise _, _) => None
      end
  | (Raise _, _) => None
  end.

(** The events of a round that are neither the progress dot nor the
    sleep: commands and log records. *)
Definition is_query_event (e : event) : bool :=
  match e with
  | CheckOutput _ | Log _ _ => true
  | StdoutWrite _ | StdoutFlush | Sleep _ => false
  end.

(** Every entry of the dict sits under the name of its record, and no
    key is there twice. *)
Definition well_keyed (d : dict) : Prop :=
  List.NoDup (map fst d) /\ List.Forall (fun kv => name (snd kv) = fst kv) d.

(** [w'] comes after [w] by commands and log records only. *)
Definition queries_between {C} (w w' : World C) : Prop :=
  exists body, events w' = (events w ++ body)%list
               /\ forallb is_query_event body = true.

(** A computation that neither writes to stdout nor sleeps. *)
Definition quiet {C A} (c : M C A) : Prop :=
  forall w r w', c w = (r, w') -> queries_between w w'.

(** What a completed round appends to the events, [body] being what
    follows the selector command. *)
Definition round_events (label_selector : string) (body : list event)
  : list event :=
  [StdoutWrite "."; StdoutFlush; CheckOutput (selector_cmd label_selector)]
    ++ body ++ [Sleep 2].

(** The schedule of a session from [w] to [w']: exactly 5 rounds, each
    with commands and log records only between the selector command and
    the sleep of 2 seconds, and the line break at the end. *)
Definition scheduled {C} (label_selector : string) (w w' : World C) : Prop :=
  exists bodies,
    length bodies = 5%nat
    /\ List.Forall (fun body => forallb is_query_event body = true) bodies
    /\ events w'
       = (events w ++ concat (map (round_events label_selector) bodies)
            ++ [StdoutWrite NL; StdoutFlush])%list.

(** Every member before the first failure passes: [passes checks w w']
    runs the members in order from [w], each returning [True], and ends
    in [w']. *)
Inductive passes {C} : list (Runnable C) -> World C -> World C -> Prop :=
| passes_nil w : passes [] w w
| passes_cons check rest w w1 w2 :
    run check w = (Ok true, w1) ->
    passes rest w1 w2 ->
    passes (check :: rest) w w2.

(** The world once [log.info(title)] is done. *)
Definition titled {C} (title : string) (w : World C) : World C :=
  mkWorld (cluster w) (events w ++ [Log INFO (Fmt title [])]).

(** ** Example sessions on a scripted cluster *)

(** A line of the selector query's output and of the query by name. *)
Definition selector_line (pod_name phase : string) : string :=
  pod_name ++ " true " ++ phase ++ " node-1 kube-system" ++ NL.

Definition status_line (pod_name phase : string) : string :=
  pod_name ++ " 1/1 " ++ phase ++ " node-1 kube-system" ++ NL.

(** The answers of a round in which the selector returns the one pod
    [cilium-x7k2p] and the query by name reports [phase]. *)
Definition one_pod_round (phase : string) : script :=
  [Printed (selector_line "cilium-x7k2p" "Running");
   Printed ("cilium-x7k2p" ++ NL);
   Printed (status_line "cilium-x7k2p" phase)].

(** The pod crash-loops in the first round and runs in the four others. *)
Definition flapping_session : script :=
  (one_pod_round "CrashLoopBackOff" ++ one_pod_round "Running"
   ++ one_pod_round "Running" ++ one_pod_round "Running"
   ++ one_pod_round "Running")%list.

(** The answers of a round with the two pods [cilium-x7k2p], which
    crash-loops, and [cilium-b9wq4], which runs. *)
Definition two_pods_round : script :=
  [Printed (selector_line "cilium-x7k2p" "Running"
            ++ selector_line "cilium-b9wq4" "Running");
   Printed ("cilium-x7k2p" ++ NL ++ "cilium-b9wq4" ++ NL);
   Printed (status_line "cilium-x7k2p" "CrashLoopBackOff");
   Printed (status_line "cilium-b9wq4" "Running")].

Definition other_pod_round : script :=
  [Printed (selector_line "cilium-b9wq4" "Running");
   Printed ("cilium-b9wq4" ++ NL);
   Printed (status_line "cilium-b9wq4" "Running")].

(** [cilium-x7k2p] is there in the first round only. *)
Definition vanishing_session : script :=
  (two_pods_round ++ other_pod_round ++ other_pod_round
   ++ other_pod_round ++ other_pod_round)%list.

(** The filter command of the first round exits with 127. *)
Definition filter_failure_session : script :=
  [Printed (selector_line "cilium-x7k2p" "Running"); Failed 127 EmptyString].

(** The command of the first query by name exits with 127. *)
Definition status_failure_session : script :=
  [Printed (selector_line "cilium-x7k2p" "Running");
   Printed ("cilium-x7k2p" ++ NL);
   Failed 127 EmptyString].

(** The selector command fails in the first round and the cluster is in
    order afterwards. *)
Definition selector_failure_session : script :=
  (Failed 1 EmptyString :: one_pod_round "Running" ++ one_pod_round "Running"
   ++ one_pod_round "Running" ++ one_pod_round "Running")%list.

(** The pod runs in four rounds and is not found by the query by name
    in the fifth. *)
Definition not_found_session : script :=
  (one_pod_round "Running" ++ one_pod_round "Running"
   ++ one_pod_round "Running" ++ one_pod_round "Running"
   ++ [Printed (selector_line "cilium-x7k2p" "Running");
       Printed ("cilium-x7k2p" ++ NL);
       Printed EmptyString])%list.

Definition seen_pod (pod_name : string) : PodStatus :=
  mkPodStatus pod_name "true" "Running" "node-1" "kube-system".

(** ** The other queries of utils.py *)

Definition log_warning {C} (m : message) : M C unit := emit (Log WARNING m).

Record ResourceStatus := mkResourceStatus {
  rs_namespace : string;
  rs_name : string
}.

Definition get_resource_status_cmd (type full_name label : string) : string :=
  "kubectl get " ++ type ++ " --no-headers --all-namespaces "
  ++ "-o wide --selector " ++ DQ ++ label ++ DQ ++ " "
  ++ "| grep " ++ DQ ++ full_name ++ DQ ++ " | awk '{print $1 " ++ DQ ++ " "
  ++ DQ ++ " $2}'".

(** [get_resource_status]: a failed command and an empty output are both
    logged as warnings and raised as [RuntimeError]. *)
Definition get_resource_status {C} `{Shell C} (type full_name label : string)
  : M C ResourceStatus :=
  let cmd := get_resource_status_cmd type full_name label in
  encoded_output <- attempt (check_output cmd) ;;
  match encoded_output with
  | Raise (CalledProcessError returncode output) =>
      log_warning (Fmt "command to get status of {} has failed. error code: {} {}"
                       [AStr full_name; AInt returncode; AStr output]) ;;
      raise (RuntimeError
               (Fmt "command to get status of {} has failed. error code: {} {}"
                    [AStr full_name; AInt returncode; AStr output]))
  | Raise e => raise e
  | Ok output =>
      if String.eqb output EmptyString then
        log_warning (Fmt ("{} " ++ DQ ++ "{}" ++ DQ ++ " with label " ++ DQ ++ "{}"
                          ++ DQ ++ " can't be found in the cluster")
                         [AStr type; AStr full_name; AStr label]) ;;
        raise (RuntimeError
                 (Fmt "{} {} with label {} can't be found in the cluster"
                      [AStr type; AStr full_name; AStr label]))
      else
        let split_line := split " " output in
        f0 <- index split_line 0 ;;
        f1 <- index split_line 1 ;;
        ret (mkResourceStatus f0 f1)
  end.

Definition get_nodes_cmd : string :=
  "kubectl get nodes | grep -v NAME | awk '{print $1}'".

(** [get_nodes]: the lines of the output, or the empty list after a
    failed command. *)
Definition get_nodes {C} `{Shell C} : M C (list string) :=
  output <- attempt (check_output get_nodes_cmd) ;;
  match output with
  | Raise (CalledProcessError returncode output) =>
      log_error (Fmt "error code: {} {}" [AInt returncode; AStr output]) ;;
      ret []
  | Raise e => raise e
  | Ok output => ret (splitlines output)
  end.


(** ** getopts *)

(** The dict of options, in insertion order; a value is the following
    argument, or [None] for Python's [None]. *)
Definition options := list (string * option string).

Fixpoint options_set (k : string) (v : option string) (opts : options) : options :=
  match opts with
  | [] => [(k, v)]
  | (k', v') :: rest =>
      if String.eqb k k' then (k, v) :: rest else (k', v') :: options_set k v rest
  end.

(** [opts.get(k)]-like lookup: the outer [None] is the missing key. *)
Fixpoint options_get (k : string) (opts : options) : option (option string) :=
  match opts with
  | [] => None
  | (k', v') :: rest => if String.eqb k k' then Some v' else options_get k rest
  end.

(** [arg[0] == '-'] on an argument that is not empty *)
Definition is_option (arg : string) : bool :=
  match arg with
  | EmptyString => false
  | String c _ => Ascii.eqb c "-"
  end.

(** The [while argv] loop of [getopts]: [argv[0][0]] raises on an empty
    argument. *)
Fixpoint getopts_from (argv : list string) (opts : options) : result options :=
  match argv with
  | [] => Ok opts
  | arg :: rest =>
      match arg with
      | EmptyString => Raise IndexError
      | String c _ =>
          getopts_from rest
            (if Ascii.eqb c "-"
             then options_set arg
                    (match rest with [] => None | value :: _ => Some value end) opts
             else opts)
      end
  end.

Definition getopts (argv : list string) : result options := getopts_from argv [].

(** ** Helpers of the properties *)

(** [s] holds no occurrence of the character [c]. *)
Fixpoint free_of (c : ascii) (s : string) : bool :=
  match s with
  | EmptyString => true
  | String c' rest => (negb (Ascii.eqb c' c) && free_of c rest)%bool
  end.

(** [s] holds no line boundary. *)
Fixpoint one_line (s : string) : bool :=
  match s with
  | EmptyString => true
  | String c rest => (negb (is_line_boundary c) && one_line rest)%bool
  end.

(** The text whose lines are [lines], each closed by a line feed. *)
Fixpoint unlines (lines : list string) : string :=
  match lines with
  | [] => EmptyString
  | line :: rest => line ++ NL ++ unlines rest
  end.

(** A [ModuleCheck]: an object that nothing in the file changes once it
    is built. *)
Definition is_module_check {C} (r : Runnable C) : bool :=
  match r with
  | ModuleCheck _ _ => true
  | ModuleCheckGroup _ _ => false
  end.

(** The chained calls [group.add(c1).add(c2)...], each on the address
    that the call before returned. *)
Fixpoint add_all {C} (self : nat) (checks : list (Runnable C))
  (heap : list (Runnable C)) : result nat * list (Runnable C) :=
  match checks with
  | [] => (Ok self, heap)
  | check :: rest =>
      match add self check heap with
      | (Ok self', heap') => add_all self' rest heap'
      | (Raise e, heap') => (Raise e, heap')
      end
  end.


(** The exceptions that a computation may end with. *)
Definition raises_only {C A} (allowed : exn -> Prop) (c : M C A) : Prop :=
  forall w e w', c w = (Raise e, w') -> allowed e.

(** A cluster with no pod: every command prints nothing. *)
Inductive empty_cluster := Empty.

#[export] Instance empty_cluster_shell : Shell empty_cluster :=
  fun _ c => (Printed EmptyString, c).

(** * Properties *)

Local Open Scope list_scope.

(** ** The monad *)

Section Monad.
Context {C : Type}.

Lemma bind_ok {A B} (c : M C A) (k : A -> M C B) w a w1 :
  c w = (Ok a, w1) -> bind c k w = k a w1.
Proof. intros E. unfold bind. now rewrite E. Qed.

Lemma bind_raise {A B} (c : M C A) (k : A -> M C B) w e w1 :
  c w = (Raise e, w1) -> bind c k w = (Raise e, w1).
Proof. intros E. unfold bind. now rewrite E. Qed.

Lemma bind_inv_ok {A B} (c : M C A) (k : A -> M C B) w b w2 :
  bind c k w = (Ok b, w2) ->
  exists a w1, c w = (Ok a, w1) /\ k a w1 = (Ok b, w2).
Proof.
  unfold bind. destruct (c w) as [[a|e] w1]; intros E.
  - now exists a, w1.
  - discriminate.
Qed.

Lemma bind_ret_r {A} (c : M C A) w : bind c ret w = c w.
Proof. unfold bind, ret. destruct (c w) as [[a|e] w1]; reflexivity. Qed.

Lemma bind_ext {A B} (c : M C A) (k k' : A -> M C B) w :
  (forall a w1, k a w1 = k' a w1) -> bind c k w = bind c k' w.
Proof. intros E. unfold bind. destruct (c w) as [[a|e] w1]; auto. Qed.

Lemma bind_assoc {A B D} (c : M C A) (k : A -> M C B) (h : B -> M C D) w :
  bind (bind c k) h w = bind c (fun a => bind (k a) h) w.
Proof. unfold bind. destruct (c w) as [[a|e] w1]; reflexivity. Qed.
End Monad.

(** ** ModuleCheck and ModuleCheckGroup *)

Section Checks.
Context {C : Type}.
Implicit Types (w : World C) (check : Runnable C) (checks : list (Runnable C)).

Lemma run_group_eq group_name checks w :
  run (ModuleCheckGroup group_name (Some checks)) w
  = for_checks run checks (titled ("== " ++ group_name ++ " ==")%string w).
Proof. reflexivity. Qed.

Lemma for_checks_cons check checks w :
  for_checks run (check :: checks) w
  = match run check w with
    | (Ok true, w1) => for_checks run checks w1
    | (Ok false, w1) => (Ok false, w1)
    | (Raise e, w1) => (Raise e, w1)
    end.
Proof.
  cbn [for_checks]. unfold bind.
  destruct (run check w) as [[[|]|e] w1]; reflexivity.
Qed.

Lemma for_checks_passes before checks w w1 :
  passes before w w1 ->
  for_checks run (before ++ checks) w = for_checks run checks w1.
Proof.
  induction 1 as [|check rest w w1 w2 Hrun _ IH]; [reflexivity|].
  rewrite <- app_comm_cons, for_checks_cons, Hrun. exact IH.
Qed.

Lemma passes_all_true checks w w1 :
  passes checks w w1 -> for_checks run checks w = (Ok true, w1).
Proof.
  intros P. rewrite <- (app_nil_r checks).
  now rewrite (for_checks_passes _ [] _ _ P).
Qed.

(** C6: [ModuleCheck.run] first logs one INFO line, the title naming
    the check, and only then calls the check callback, which so runs in
    the world that already holds that line.  When the callback returns
    a truthy value, [run] calls [success_cb] and returns [True]; when it
    returns any other value, [run] calls [failure_cb] and returns
    [False]. *)
Theorem ModuleCheck_run_contract summary (check_cb : M C PyVal) w verdict w1 :
  check_cb (titled ("-- " ++ summary ++ " --")%string w) = (Ok verdict, w1) ->
  events (titled ("-- " ++ summary ++ " --")%string w)
    = events w ++ [Log INFO (Fmt ("-- " ++ summary ++ " --")%string [])]
  /\ run (ModuleCheck summary check_cb) w
     = if truthy verdict
       then (Ok true, snd (success_cb w1))
       else (Ok false, snd (failure_cb w1)).
Proof.
  intros Hcb. split; [reflexivity|].
  cbn [run get_title]. unfold log_info at 1.
  unfold bind at 1. cbn [emit]. fold (titled ("-- " ++ summary ++ " --")%string w).
  unfold bind at 1. rewrite Hcb.
  destruct (truthy verdict); reflexivity.
Qed.

(** C2: in a group whose members are [before ++ check :: after], when
    every member of [before] returns [True] and [check] is the first to
    return [False], the group's [run] returns [False] in the very world
    in which [check.run()] returned: no member of [after] is run,
    whatever [after] holds, and the outcome is that of the group cut
    after [check]. *)
Theorem group_short_circuit group_name before check after w wk wk' :
  passes before (titled ("== " ++ group_name ++ " ==")%string w) wk ->
  run check wk = (Ok false, wk') ->
  run (ModuleCheckGroup group_name (Some (before ++ check :: after))) w
    = (Ok false, wk')
  /\ run (ModuleCheckGroup group_name (Some (before ++ check :: after))) w
     = run (ModuleCheckGroup group_name (Some (before ++ [check]))) w.
Proof.
  intros Hpass Hfail.
  assert (Hcut : forall rest,
             run (ModuleCheckGroup group_name (Some (before ++ check :: rest))) w
             = (Ok false, wk')).
  { intros rest. rewrite run_group_eq, (for_checks_passes _ _ _ _ Hpass).
    now rewrite for_checks_cons, Hfail. }
  split; [apply Hcut|]. now rewrite !Hcut.
Qed.

(** C5: a group whose list of checks is empty returns [True], having
    logged its title and nothing else. *)
Theorem empty_group_succeeds group_name w :
  run (ModuleCheckGroup group_name (Some [])) w
  = (Ok true, titled ("== " ++ group_name ++ " ==")%string w).
Proof. reflexivity. Qed.

(** C10: a group built without the [checks] argument holds [None],
    not the empty list.  [run] on it, before any [add], logs the title
    and raises [TypeError] at the [for] statement: it returns no
    boolean.  [add] on it makes the list, puts the check in it and
    returns the address of the group itself; a second [add] puts its
    check behind the first. *)
Theorem default_group_edge_case group_name check check' (heap : list (Runnable C))
  (self : nat) w :
  heap !! self = Some (default_group group_name) ->
  group_checks (default_group group_name : Runnable C) = None
  /\ group_checks (default_group group_name : Runnable C) <> Some []
  /\ run_at self heap w
     = (Raise TypeError, titled ("== " ++ group_name ++ " ==")%string w)
  /\ (forall b w', run_at self heap w <> (Ok b, w'))
  /\ add self check heap
     = (Ok self, <[self := ModuleCheckGroup group_name (Some [check])]> heap)
  /\ add self check' (snd (add self check heap))
     = (Ok self,
        <[self := ModuleCheckGroup group_name (Some [check; check'])]> heap).
Proof.
  intros Hself.
  assert (Hlt : (self < length heap)%nat) by (eapply lookup_lt_Some; eauto).
  assert (Hrun : run_at self heap w
                 = (Raise TypeError, titled ("== " ++ group_name ++ " ==")%string w)).
  { unfold run_at. rewrite Hself. reflexivity. }
  assert (Hadd : add self check heap
                 = (Ok self,
                    <[self := ModuleCheckGroup group_name (Some [check])]> heap)).
  { unfold add. rewrite Hself. reflexivity. }
  repeat split; try easy.
  - intros b w'. rewrite Hrun. discriminate.
  - rewrite Hadd. cbn [snd]. unfold add.
    rewrite list_lookup_insert_eq by exact Hlt. cbn.
    now rewrite list_insert_insert_eq.
Qed.
End Checks.

(** ** Text *)

Example split_keeps_empty_fields :
  split " " "cilium-x7k2p  Pending  kube-system"
  = ["cilium-x7k2p"; EmptyString; "Pending"; EmptyString; "kube-system"]%string.
Proof. reflexivity. Qed.

Example split_of_empty : split " " EmptyString = [EmptyString].
Proof. reflexivity. Qed.

Example splitlines_drops_last_boundary :
  splitlines ("a" ++ NL ++ NL ++ "b" ++ NL)%string = ["a"; EmptyString; "b"]%string.
Proof. reflexivity. Qed.

Example splitlines_crlf :
  splitlines ("a" ++ String (ascii_of_nat 13) NL ++ "b")%string = ["a"; "b"]%string.
Proof. reflexivity. Qed.

Example splitlines_of_empty : splitlines EmptyString = [].
Proof. reflexivity. Qed.

Lemma split_nonempty sep s : split sep s <> [].
Proof.
  destruct s as [|c rest]; cbn; [discriminate|].
  destruct (Ascii.eqb c sep); [discriminate|].
  destruct (split sep rest); discriminate.
Qed.

(** ** The dict of the sampler *)

Lemma dict_get_set_eq k v d : dict_get k (dict_set k v d) = Some v.
Proof.
  induction d as [|[k' v'] d IH]; cbn.
  - now rewrite String.eqb_refl.
  - destruct (String.eqb k k') eqn:E; cbn; rewrite ?String.eqb_refl, ?E; auto.
Qed.

Lemma dict_get_set_ne k k' v d :
  k <> k' -> dict_get k' (dict_set k v d) = dict_get k' d.
Proof.
  intros Hne. induction d as [|[k0 v0] d IH]; cbn.
  - destruct (String.eqb k' k) eqn:E; [|reflexivity].
    apply String.eqb_eq in E. congruence.
  - destruct (String.eqb k k0) eqn:E; cbn.
    + apply String.eqb_eq in E. subst k0.
      destruct (String.eqb k' k) eqn:E'; [|reflexivity].
      apply String.eqb_eq in E'. congruence.
    + now rewrite IH.
Qed.

Lemma dict_set_keys k v d k' :
  In k' (map fst (dict_set k v d)) <-> k' = k \/ In k' (map fst d).
Proof.
  induction d as [|[k0 v0] d IH]; cbn.
  - intuition.
  - destruct (String.eqb k k0) eqn:E; cbn.
    + apply String.eqb_eq in E. subst k0. intuition.
    + rewrite IH. intuition.
Qed.

Lemma dict_set_well_keyed k v d :
  name v = k -> well_keyed d -> well_keyed (dict_set k v d).
Proof.
  intros Hk [Hnd Hall]. induction d as [|[k0 v0] d IH]; cbn.
  - split; [constructor; [intros []|constructor]|constructor; [exact Hk|constructor]].
  - inversion Hnd as [|? ? Hnotin Hnd']; subst.
    inversion Hall as [|? ? Hhead Hall']; subst.
    destruct (String.eqb k0 (name v)) eqn:E0;
      rewrite String.eqb_sym in E0; rewrite E0.
    + apply String.eqb_eq in E0. subst k0.
      split; [now constructor|now constructor].
    + destruct (IH Hnd' Hall') as [IH1 IH2].
      split; cbn; constructor; auto.
      rewrite dict_set_keys. intros [->|Hin]; [|contradiction].
      now rewrite String.eqb_refl in E0.
Qed.

Lemma dict_get_in_keys k d :
  In k (map fst d) -> exists v, dict_get k d = Some v.
Proof.
  induction d as [|[k0 v0] d IH]; cbn; [intros []|].
  intros Hin. destruct (String.eqb k k0) eqn:E; [eauto|].
  destruct Hin as [->|Hin]; [now rewrite String.eqb_refl in E|auto].
Qed.

Lemma values_none_of_absent_key k d :
  ~ In k (map fst d) ->
  List.Forall (fun kv => name (snd kv) = fst kv) d ->
  List.filter (fun r => String.eqb (name r) k) (map snd d) = [].
Proof.
  induction d as [|[k0 v0] d IH]; cbn; [reflexivity|].
  intros Hnotin Hall. inversion Hall as [|? ? Hhead Hall']; subst.
  cbn in Hhead. rewrite Hhead.
  destruct (String.eqb k0 k) eqn:E.
  - apply String.eqb_eq in E. tauto.
  - apply IH; tauto.
Qed.

(** In a well keyed dict the values hold exactly one record of each
    name that is a key: the one stored under it. *)
Lemma well_keyed_values_once k v d :
  well_keyed d -> dict_get k d = Some v ->
  List.filter (fun r => String.eqb (name r) k) (map snd d) = [v].
Proof.
  intros [Hnd Hall]. induction d as [|[k0 v0] d IH]; cbn; [discriminate|].
  inversion Hnd as [|? ? Hnotin Hnd']; subst.
  inversion Hall as [|? ? Hhead Hall']; subst. cbn in Hhead.
  rewrite Hhead, (String.eqb_sym k k0).
  destruct (String.eqb k0 k) eqn:E.
  - intros [= ->]. f_equal. apply String.eqb_eq in E. subst k.
    now apply values_none_of_absent_key.
  - intros Hget. apply IH; auto.
Qed.

(** ** What the sampler does to the outside *)

Section Quiet.
Context {C : Type} `{Shell C}.
Implicit Types (w : World C).

Lemma queries_between_refl w : queries_between w w.
Proof. exists []. now rewrite app_nil_r. Qed.

Lemma queries_between_trans (w1 w2 w3 : World C) :
  queries_between w1 w2 -> queries_between w2 w3 -> queries_between w1 w3.
Proof.
  intros (b1 & E1 & Q1) (b2 & E2 & Q2). exists (b1 ++ b2). split.
  - now rewrite E2, E1, app_assoc.
  - now rewrite forallb_app, Q1, Q2.
Qed.

Lemma quiet_ret {A} (a : A) : quiet (@ret C A a).
Proof. intros w r w' [= <- <-]. apply queries_between_refl. Qed.

Lemma quiet_raise {A} e : quiet (@raise C A e).
Proof. intros w r w' [= <- <-]. apply queries_between_refl. Qed.

Lemma quiet_bind {A B} (c : M C A) (k : A -> M C B) :
  quiet c -> (forall a, quiet (k a)) -> quiet (bind c k).
Proof.
  intros Qc Qk w r w'. unfold bind.
  destruct (c w) as [[a|e] w1] eqn:Ec; intros E.
  - eapply queries_between_trans; [eapply Qc, Ec|eapply Qk, E].
  - injection E as <- <-. eapply Qc, Ec.
Qed.

Lemma quiet_attempt {A} (c : M C A) : quiet c -> quiet (attempt c).
Proof.
  intros Qc w r w'. unfold attempt.
  destruct (c w) as [r1 w1] eqn:Ec. intros [= <- <-]. eapply Qc, Ec.
Qed.

Lemma quiet_log_error m : quiet (@log_error C m).
Proof. intros w r w' [= <- <-]. now exists [Log ERROR m]. Qed.

Lemma quiet_check_output cmd : quiet (check_output cmd).
Proof.
  intros w r w'. unfold check_output.
  destruct (shell cmd (cluster w)) as [[text| |code out] c'];
    intros [= <- <-]; now exists [CheckOutput cmd].
Qed.

Lemma quiet_index l i : quiet (@index C l i).
Proof.
  unfold index. destruct (nth_error l i); [apply quiet_ret|apply quiet_raise].
Qed.
End Quiet.

Create HintDb quiet.
#[local] Hint Resolve quiet_ret quiet_raise quiet_attempt quiet_log_error
  quiet_check_output quiet_index : quiet.

(** Takes a computation apart along its binds and case distinctions. *)
Ltac quiet_steps :=
  repeat first
    [ progress eauto with quiet
    | apply quiet_bind; [|intros ?]
    | match goal with
      | |- quiet (match ?x with _ => _ end) => destruct x
      end ].

Section Schedule.
Context {C : Type} `{Shell C}.

Lemma quiet_get_pod_status full_pod_name : quiet (get_pod_status full_pod_name).
Proof. unfold get_pod_status. quiet_steps. Qed.

Lemma quiet_status_verdict_of pod_name : quiet (status_verdict_of pod_name).
Proof.
  unfold status_verdict_of. pose proof (quiet_get_pod_status pod_name).
  quiet_steps.
Qed.

Lemma quiet_for_pods pods pod_status_map : quiet (for_pods pods pod_status_map).
Proof.
  revert pod_status_map. induction pods as [|p pods IH]; intros m; cbn [for_pods].
  - apply quiet_ret.
  - apply quiet_bind; [|exact IH]. unfold observe.
    pose proof (quiet_status_verdict_of (name p)). quiet_steps.
Qed.

(** A command followed by quiet steps. *)
Lemma command_then_quiet {A} cmd (k : result string -> M C A) w r w' :
  (forall output, quiet (k output)) ->
  bind (attempt (check_output cmd)) k w = (r, w') ->
  exists body, events w' = events w ++ CheckOutput cmd :: body
               /\ forallb is_query_event body = true.
Proof.
  intros Qk. unfold bind, attempt.
  destruct (check_output cmd w) as [r1 w1] eqn:E1. intros E.
  assert (Ev : events w1 = events w ++ [CheckOutput cmd]).
  { unfold check_output in E1.
    destruct (shell _ (cluster w)) as [[text| |code out] c'];
      injection E1 as <- <-; reflexivity. }
  destruct (Qk _ _ _ _ E) as (body & Eb & Qb). exists body. split; [|exact Qb].
  now rewrite Eb, Ev, <- app_assoc.
Qed.

(** The selector query starts with its command; the rest is quiet. *)
Lemma selector_query_events label_selector host_ip_filter must_exist w r w' :
  get_pods_status_iterator_by_labels label_selector host_ip_filter must_exist w
    = (r, w') ->
  exists body, events w' = events w ++ CheckOutput (selector_cmd label_selector) :: body
               /\ forallb is_query_event body = true.
Proof.
  unfold get_pods_status_iterator_by_labels. apply command_then_quiet.
  intros output. quiet_steps.
Qed.
End Schedule.

(** ** The rounds of the sampler *)

Section Rounds.
Context {C : Type} `{Shell C}.
Implicit Types (w : World C) (m : dict) (p : PodStatus).

Lemma round_head_eq label_selector w :
  round_head label_selector w
  = get_pods_status_iterator_by_labels label_selector [] false
      (mkWorld (cluster w) ((events w ++ [StdoutWrite "."]) ++ [StdoutFlush])).
Proof. reflexivity. Qed.

(** A round that comes to its end: the selector query answered, every
    pod of the answer was dealt with, the generator ended without
    raising, and the round slept. *)
Lemma round_inv label_selector m w m' w' :
  round label_selector m w = (Ok m', w') ->
  exists pods wg wf,
    round_head label_selector w = (Ok pods, wg)
    /\ for_pods (yields pods) m wg = (Ok m', wf)
    /\ finish pods = None
    /\ w' = mkWorld (cluster wf) (events wf ++ [Sleep 2]).
Proof.
  rewrite round_head_eq. unfold round.
  unfold bind at 1. cbn [stdout_write emit]. unfold bind at 1. cbn [stdout_flush emit].
  intros E. apply bind_inv_ok in E as (pods & wg & Eg & E).
  apply bind_inv_ok in E as (m1 & wf & Ef & E).
  exists pods, wg, wf. cbn [cluster events] in Eg.
  destruct (finish pods) as [e|]; [discriminate|].
  cbn in E. injection E as <- <-. auto.
Qed.

Lemma round_events_ok label_selector m w m' w' :
  round label_selector m w = (Ok m', w') ->
  exists body, events w' = events w ++ round_events label_selector body
               /\ forallb is_query_event body = true.
Proof.
  intros E. apply round_inv in E as (pods & wg & wf & Eg & Ef & _ & ->).
  rewrite round_head_eq in Eg.
  apply selector_query_events in Eg as (b1 & E1 & Q1).
  apply quiet_for_pods in Ef as (b2 & E2 & Q2).
  exists (b1 ++ b2). split; [|now rewrite forallb_app, Q1, Q2].
  cbn [events] in *. rewrite E2, E1. unfold round_events.
  rewrite <- !app_assoc. reflexivity.
Qed.

Lemma rounds_events attempts label_selector m w m' w' :
  rounds attempts label_selector m w = (Ok m', w') ->
  exists bodies,
    length bodies = attempts
    /\ List.Forall (fun body => forallb is_query_event body = true) bodies
    /\ events w' = events w ++ concat (map (round_events label_selector) bodies).
Proof.
  revert m w. induction attempts as [|n IH]; intros m w; cbn [rounds].
  - intros [= <- <-]. exists []. cbn. now rewrite app_nil_r.
  - intros E. apply bind_inv_ok in E as (m1 & w1 & E1 & E).
    apply round_events_ok in E1 as (body & Eb & Qb).
    apply IH in E as (bodies & Hlen & Hq & Ev).
    exists (body :: bodies). cbn [length map concat]. repeat split.
    + now rewrite Hlen.
    + now constructor.
    + now rewrite Ev, Eb, <- app_assoc.
Qed.

Lemma rounds_snoc attempts label_selector m w :
  rounds (S attempts) label_selector m w
  = bind (rounds attempts label_selector m) (round label_selector) w.
Proof.
  revert m w. induction attempts as [|n IH]; intros m w.
  - cbn [rounds]. apply bind_ret_r.
  - change (rounds (S (S n)) label_selector m w)
      with (bind (round label_selector m) (rounds (S n) label_selector) w).
    rewrite (bind_ext _ _ _ w (IH)).
    now rewrite <- bind_assoc.
Qed.

Lemma rounds_add a b label_selector m w :
  rounds (a + b) label_selector m w
  = bind (rounds a label_selector m) (rounds b label_selector) w.
Proof.
  revert m w. induction a as [|a IH]; intros m w; [reflexivity|].
  cbn [Nat.add rounds]. rewrite bind_assoc. apply bind_ext. exact IH.
Qed.

(** ** What a pod leaves in the dict *)

Lemma observe_inv p m w m' w' :
  observe p m w = (Ok m', w') ->
  exists verdict,
    status_verdict_of (name p) w = (Ok verdict, w')
    /\ m' = dict_set (name p) (with_verdict p verdict) m.
Proof.
  unfold observe. intros E. apply bind_inv_ok in E as (v & w1 & Ev & E).
  injection E as <- <-. eauto.
Qed.

Lemma for_pods_app pods pods' m w :
  for_pods (pods ++ pods') m w = bind (for_pods pods m) (for_pods pods') w.
Proof.
  revert m w. induction pods as [|p pods IH]; intros m w; [reflexivity|].
  cbn [app for_pods]. rewrite bind_assoc. apply bind_ext. exact IH.
Qed.

Lemma for_pods_keeps pods m w m' w' :
  for_pods pods m w = (Ok m', w') ->
  well_keyed m ->
  well_keyed m'
  /\ (forall k, In k (map fst m) -> In k (map fst m'))
  /\ (forall p, In p pods -> In (name p) (map fst m')).
Proof.
  revert m w. induction pods as [|p pods IH]; intros m w; cbn [for_pods].
  - intros [= <- <-] Hm. split; [auto|split; [auto|intros p []]].
  - intros E Hm. apply bind_inv_ok in E as (m1 & w1 & E1 & E).
    apply observe_inv in E1 as (v & _ & ->).
    apply IH in E as (Hm' & Hmono & Hin).
    + split; [exact Hm'|split].
      * intros k Hk. apply Hmono, dict_set_keys. auto.
      * intros q [<-|Hq]; [|auto]. apply Hmono, dict_set_keys. auto.
    + now apply dict_set_well_keyed.
Qed.

Lemma for_pods_untouched k pods m w m' w' :
  for_pods pods m w = (Ok m', w') ->
  List.Forall (fun q => name q <> k) pods ->
  dict_get k m' = dict_get k m.
Proof.
  revert m w. induction pods as [|p pods IH]; intros m w; cbn [for_pods].
  - now intros [= <- <-].
  - intros E Hne. inversion Hne as [|? ? Hp Hrest]; subst.
    apply bind_inv_ok in E as (m1 & w1 & E1 & E).
    apply observe_inv in E1 as (v & _ & ->).
    rewrite (IH _ _ E Hrest). now apply dict_get_set_ne.
Qed.

Lemma well_keyed_nil : well_keyed [].
Proof. split; constructor. Qed.

Lemma round_keeps label_selector m w m' w' :
  round label_selector m w = (Ok m', w') ->
  well_keyed m ->
  well_keyed m' /\ (forall k, In k (map fst m) -> In k (map fst m')).
Proof.
  intros E Hm. apply round_inv in E as (pods & wg & wf & _ & Ef & _).
  apply for_pods_keeps in Ef; tauto.
Qed.

Lemma rounds_keeps attempts label_selector m w m' w' :
  rounds attempts label_selector m w = (Ok m', w') ->
  well_keyed m ->
  well_keyed m' /\ (forall k, In k (map fst m) -> In k (map fst m')).
Proof.
  revert m w. induction attempts as [|n IH]; intros m w; cbn [rounds].
  - intros [= <- <-] Hm. auto.
  - intros E Hm. apply bind_inv_ok in E as (m1 & w1 & E1 & E).
    apply round_keeps in E1 as (Hm1 & Hmono1); [|exact Hm].
    apply IH in E as (Hm' & Hmono); auto.
Qed.

(** The pods of round [i], given how the session got there. *)
Lemma pods_seen_eq label_selector w i mi wi pods wg :
  rounds i label_selector [] w = (Ok mi, wi) ->
  round_head label_selector wi = (Ok pods, wg) ->
  pods_seen label_selector w i = yields pods.
Proof. intros Ei Eg. unfold pods_seen. now rewrite Ei, Eg. Qed.

(** A session of 5 rounds seen from its round [i]. *)
Lemma rounds_split i label_selector w m5 w5 :
  (i < 5)%nat ->
  rounds 5 label_selector [] w = (Ok m5, w5) ->
  exists mi wi pods wg m1 wf,
    rounds i label_selector [] w = (Ok mi, wi)
    /\ round_head label_selector wi = (Ok pods, wg)
    /\ for_pods (yields pods) mi wg = (Ok m1, wf)
    /\ rounds (S i) label_selector [] w
       = (Ok m1, mkWorld (cluster wf) (events wf ++ [Sleep 2]))
    /\ rounds (4 - i) label_selector m1
         (mkWorld (cluster wf) (events wf ++ [Sleep 2])) = (Ok m5, w5).
Proof.
  intros Hi E. replace 5%nat with (S i + (4 - i))%nat in E by lia.
  rewrite rounds_add in E. apply bind_inv_ok in E as (m1 & w1 & E1 & E).
  pose proof E1 as E1'. rewrite rounds_snoc in E1.
  apply bind_inv_ok in E1 as (mi & wi & Ei & Er).
  apply round_inv in Er as (pods & wg & wf & Eg & Ef & _ & ->).
  exists mi, wi, pods, wg, m1, wf. auto.
Qed.

(** The session as its rounds. *)
Lemma sampler_inv label_selector w res w' :
  get_pods_summarized_status_iterator label_selector w = (Ok res, w') ->
  exists m w5,
    rounds 5 label_selector [] w = (Ok m, w5)
    /\ res = map snd m
    /\ events w' = events w5 ++ [StdoutWrite NL; StdoutFlush].
Proof.
  unfold get_pods_summarized_status_iterator. intros E.
  apply bind_inv_ok in E as (m & w5 & E5 & E). exists m, w5.
  cbn in E. injection E as <- <-. cbn [events].
  now rewrite <- app_assoc.
Qed.

(** The schedule of a session that comes to its end: exactly 5 rounds
    over the selector.  Each round writes the progress dot,
    flushes, issues the selector command, issues further commands and
    log records only, and then sleeps 2 seconds; so two consecutive
    rounds are 2 seconds apart, and the last one too is followed by that
    sleep, before the final line break. *)
Theorem sampler_schedule label_selector w res w' :
  get_pods_summarized_status_iterator label_selector w = (Ok res, w') ->
  scheduled label_selector w w'.
Proof.
  intros E. apply sampler_inv in E as (m & w5 & E5 & _ & Ev).
  apply rounds_events in E5 as (bodies & Hlen & Hq & E5).
  exists bodies. repeat split; auto.
  now rewrite Ev, E5, <- app_assoc.
Qed.

(** Rounds in which no pod of a name is seen leave what the dict holds
    under that name. *)
Lemma rounds_untouched k label_selector w d :
  forall j mj wj m' w',
    rounds j label_selector [] w = (Ok mj, wj) ->
    rounds d label_selector mj wj = (Ok m', w') ->
    (forall j', (j <= j' < j + d)%nat ->
                List.Forall (fun q => name q <> k) (pods_seen label_selector w j')) ->
    dict_get k m' = dict_get k mj.
Proof.
  induction d as [|d IH]; intros j mj wj m' w' Ej; cbn [rounds].
  - now intros [= <- <-].
  - intros E Hne. apply bind_inv_ok in E as (m1 & w1 & E1 & E).
    assert (ESj : rounds (S j) label_selector [] w = (Ok m1, w1)).
    { rewrite rounds_snoc. now rewrite (bind_ok _ _ _ _ _ Ej). }
    rewrite (IH _ _ _ _ _ ESj E) by (intros j' Hj'; apply Hne; lia).
    apply round_inv in E1 as (pods & wg & wf & Eg & Ef & _ & _).
    eapply for_pods_untouched; [exact Ef|].
    rewrite <- (pods_seen_eq _ _ _ _ _ _ _ Ej Eg). apply Hne. lia.
Qed.

(** The not-found error of [get_pod_status] is the [RuntimeError] that
    it raises when the command prints nothing. *)
Lemma get_pod_status_not_found full_pod_name w c' :
  shell (get_pod_status_cmd full_pod_name) (cluster w) = (Printed EmptyString, c') ->
  get_pod_status full_pod_name w
  = (Raise (RuntimeError
              (Fmt "pod {} is not running on the cluster" [AStr full_pod_name])),
     mkWorld c'
       (events w ++ [CheckOutput (get_pod_status_cmd full_pod_name)]
          ++ [Log ERROR (Fmt "pod {} is not running on the cluster"
                             [AStr full_pod_name])])).
Proof.
  intros E. unfold get_pod_status, bind, attempt, check_output. rewrite E.
  cbn. now rewrite <- app_assoc.
Qed.

(** C8: in a session that comes to its end, every pod that the selector
    query returned in one of the 5 rounds has exactly one record of its
    name in the sequence that is yielded, also when later rounds did not
    return it. *)
Theorem sampler_completeness label_selector w res w' i p :
  get_pods_summarized_status_iterator label_selector w = (Ok res, w') ->
  (i < 5)%nat ->
  In p (pods_seen label_selector w i) ->
  exists r, List.filter (fun r => String.eqb (name r) (name p)) res = [r].
Proof.
  intros E Hi Hp. apply sampler_inv in E as (m5 & w5 & E5 & -> & _).
  destruct (rounds_split _ _ _ _ _ Hi E5)
    as (mi & wi & pods & wg & m1 & wf & Ei & Eg & Ef & ES & Erest).
  rewrite (pods_seen_eq _ _ _ _ _ _ _ Ei Eg) in Hp.
  destruct (rounds_keeps _ _ _ _ _ _ Ei well_keyed_nil) as (Hmi & _).
  destruct (for_pods_keeps _ _ _ _ _ Ef Hmi) as (Hm1 & _ & Hin).
  destruct (rounds_keeps _ _ _ _ _ _ Erest Hm1) as (Hm5 & Hmono).
  destruct (dict_get_in_keys (name p) m5) as (r & Hr); [auto|].
  exists r. now apply well_keyed_values_once.
Qed.

(** The verdict of a turn, case by case: the status that the query by
    name reports, which is "Running" or not; "Not Running" after the
    not-found error; no verdict when the query returned [None]. *)
Lemma status_verdict_of_cases pod_name w :
  status_verdict_of pod_name w
  = match get_pod_status pod_name w with
    | (Ok (Some temp), w1) => (Ok (status temp), w1)
    | (Ok None, w1) => (Raise AttributeError, w1)
    | (Raise (RuntimeError _), w1) => (Ok STATUS_NOT_RUNNING, w1)
    | (Raise e, w1) => (Raise e, w1)
    end.
Proof.
  unfold status_verdict_of, bind, attempt.
  destruct (get_pod_status pod_name w) as [[[temp|]|e] w1]; cbn; try reflexivity.
  - destruct (String.eqb (status temp) STATUS_RUNNING) eqn:E; cbn; [|reflexivity].
    apply String.eqb_eq in E. now rewrite E.
  - destruct e; reflexivity.
Qed.

(** The last turn for a name decides its record: in a session that comes
    to its end, the dict of round [i] before the turn of [p], the world
    of that turn and its verdict. *)
Lemma last_turn_record label_selector w res w' i before p after :
  get_pods_summarized_status_iterator label_selector w = (Ok res, w') ->
  (i < 5)%nat ->
  pods_seen label_selector w i = before ++ p :: after ->
  List.Forall (fun q => name q <> name p) after ->
  (forall j, (i < j < 5)%nat ->
             List.Forall (fun q => name q <> name p) (pods_seen label_selector w j)) ->
  exists mi wi pods wg mb wp verdict w1,
    rounds i label_selector [] w = (Ok mi, wi)
    /\ round_head label_selector wi = (Ok pods, wg)
    /\ for_pods before mi wg = (Ok mb, wp)
    /\ status_verdict_of (name p) wp = (Ok verdict, w1)
    /\ List.filter (fun r => String.eqb (name r) (name p)) res
       = [with_verdict p verdict].
Proof.
  intros E Hi Hseen Hafter Hlater.
  apply sampler_inv in E as (m5 & w5 & E5 & -> & _).
  destruct (rounds_split _ _ _ _ _ Hi E5)
    as (mi & wi & pods & wg & m1 & wf & Ei & Eg & Ef & ES & Erest).
  rewrite (pods_seen_eq _ _ _ _ _ _ _ Ei Eg) in Hseen. rewrite Hseen in Ef.
  rewrite for_pods_app in Ef. apply bind_inv_ok in Ef as (mb & wp & Eb & Ef).
  cbn [for_pods] in Ef. apply bind_inv_ok in Ef as (mo & wo & Eo & Ef).
  apply observe_inv in Eo as (verdict & Ev & ->).
  exists mi, wi, pods, wg, mb, wp, verdict, wo.
  split; [exact Ei|]. split; [exact Eg|]. split; [exact Eb|]. split; [exact Ev|].
  destruct (rounds_keeps _ _ _ _ _ _ E5 well_keyed_nil) as (Hm5 & _).
  apply well_keyed_values_once; [exact Hm5|].
  rewrite (rounds_untouched (name p) _ _ _ _ _ _ _ _ ES Erest)
    by (intros j' Hj'; apply Hlater; lia).
  rewrite (for_pods_untouched _ _ _ _ _ _ Ef Hafter).
  apply dict_get_set_eq.
Qed.

(** C9: in a session that comes to its end, take the last round [i] in
    which the selector query returned a pod of a given name, and the
    last pod [p] of that name in its answer.  The one record of that
    name that is yielded has the fields of [p] and, as its status, the
    verdict that this round computed for [p]: the outcome of the [try]
    statement in the world of that turn.  That verdict starts from
    "Running" and reads the query by name alone: it is "Running" when
    the query reports "Running", the reported status otherwise, and
    "Not Running" when the pod is not found; it takes nothing from the
    dict of the earlier rounds. *)
Theorem last_observation_wins label_selector w res w' i before p after :
  get_pods_summarized_status_iterator label_selector w = (Ok res, w') ->
  (i < 5)%nat ->
  pods_seen label_selector w i = before ++ p :: after ->
  List.Forall (fun q => name q <> name p) after ->
  (forall j, (i < j < 5)%nat ->
             List.Forall (fun q => name q <> name p) (pods_seen label_selector w j)) ->
  exists wp verdict w1,
    world_seen label_selector w i before = Some wp
    /\ status_verdict_of (name p) wp = (Ok verdict, w1)
    /\ match fst (get_pod_status (name p) wp) with
       | Ok (Some temp) =>
           verdict = if String.eqb (status temp) STATUS_RUNNING
                     then STATUS_RUNNING else status temp
       | Raise (RuntimeError _) => verdict = STATUS_NOT_RUNNING
       | _ => False
       end
    /\ List.filter (fun r => String.eqb (name r) (name p)) res
       = [mkPodStatus (name p) (ready_status p) verdict (node_name p) (namespace p)]
    /\ (forall r, In r res -> name r = name p -> status r = verdict).
Proof.
  intros E Hi Hseen Hafter Hlater.
  destruct (last_turn_record _ _ _ _ _ _ _ _ E Hi Hseen Hafter Hlater)
    as (mi & wi & pods & wg & mb & wp & verdict & w1 & Ei & Eg & Eb & Ev & Hres).
  exists wp, verdict, w1.
  split; [unfold world_seen; now rewrite Ei, Eg, Eb|]. split; [exact Ev|].
  split; [|split; [exact Hres|]].
  - rewrite status_verdict_of_cases in Ev.
    destruct (get_pod_status (name p) wp) as [[[temp|]|e] wq]; cbn [fst].
    + injection Ev as <- _.
      destruct (String.eqb_spec (status temp) STATUS_RUNNING) as [->|_]; reflexivity.
    + discriminate.
    + destruct e; try discriminate. now injection Ev as <- _.
  - intros r Hr Hname.
    assert (Hin : In r (List.filter (fun r => String.eqb (name r) (name p)) res))
      by (apply List.filter_In; split; [exact Hr|now apply String.eqb_eq]).
    rewrite Hres in Hin.
    destruct Hin as [<-|[]]. reflexivity.
Qed.
End Rounds.

(** ** The sessions of the examples *)

(** C1: the sampler does not hold on to a status other than "Running".
    In the flapping session the first round stores "CrashLoopBackOff"
    for the pod and the later rounds store "Running" over it, which is
    what the session yields. *)
Theorem sticky_merge_violated :
  fst (rounds 1 "k8s-app=cilium" [] (start flapping_session))
  = Ok [("cilium-x7k2p",
         with_verdict (seen_pod "cilium-x7k2p") "CrashLoopBackOff")]
  /\ fst (get_pods_summarized_status_iterator "k8s-app=cilium"
            (start flapping_session))
     = Ok [with_verdict (seen_pod "cilium-x7k2p") "Running"].
Proof. split; vm_compute; reflexivity. Qed.

(** C3: a command that fails is not always recovered.  When the filter
    command of the selector query fails, the error is logged and
    [UnboundLocalError] leaves the sampler; when the command of a query
    by name fails, the error is logged, [get_pod_status] returns [None]
    and [AttributeError] leaves the sampler.  Both end the session in
    its first round. *)
Theorem command_failure_escapes :
  fst (get_pods_summarized_status_iterator "k8s-app=cilium"
         (start filter_failure_session))
  = Raise UnboundLocalError
  /\ fst (get_pods_summarized_status_iterator "k8s-app=cilium"
            (start status_failure_session))
     = Raise AttributeError
  /\ fst (get_pod_status "cilium-x7k2p" (start [Failed 127 EmptyString]))
     = Ok None.
Proof. repeat split; vm_compute; reflexivity. Qed.

(** What is left of the session whose first query by name fails: one
    progress dot, the three commands and the log record of the failure. *)
Lemma status_failure_events :
  get_pods_summarized_status_iterator "k8s-app=cilium" (start status_failure_session)
  = (Raise AttributeError,
     mkWorld []
       [StdoutWrite "."; StdoutFlush;
        CheckOutput (selector_cmd "k8s-app=cilium");
        CheckOutput (host_ip_filter_cmd []);
        CheckOutput (get_pod_status_cmd "cilium-x7k2p");
        Log ERROR (Fmt "command to get status of {} has failed. error code: {} {}"
                       [AStr "cilium-x7k2p"; AInt 127; AStr EmptyString])]).
Proof. vm_compute. reflexivity. Qed.

(** C7: a session does not always make its 5 rounds.  The session
    whose first query by name fails is ended in its first round by the
    [AttributeError] that the sampler does not catch, with neither a
    sleep nor a second round: its events are not those of 5 rounds. *)
Theorem schedule_cut_short :
  ~ scheduled "k8s-app=cilium" (start status_failure_session)
      (snd (get_pods_summarized_status_iterator "k8s-app=cilium"
              (start status_failure_session))).
Proof.
  rewrite status_failure_events. intros (bodies & _ & _ & E).
  cbn [snd events start] in E. apply (f_equal (@rev event)) in E.
  rewrite app_nil_l, rev_app_distr in E. cbn in E. discriminate.
Qed.

(** The one failure that is recovered: a failed selector command is
    logged and the round sees no pod; the session goes on. *)
Lemma selector_failure_recovered :
  pods_seen "k8s-app=cilium" (start selector_failure_session) 0 = []
  /\ fst (get_pods_summarized_status_iterator "k8s-app=cilium"
            (start selector_failure_session))
     = Ok [with_verdict (seen_pod "cilium-x7k2p") "Running"].
Proof. split; vm_compute; reflexivity. Qed.

(** A failed selector command, on any cluster: the error is logged and
    the generator yields nothing. *)
Lemma selector_command_failure {C} `{Shell C} label_selector host_ip_filter
  must_exist (w : World C) returncode output c' :
  shell (selector_cmd label_selector) (cluster w) = (Failed returncode output, c') ->
  get_pods_status_iterator_by_labels label_selector host_ip_filter must_exist w
  = (Ok empty_gen,
     mkWorld c'
       (events w ++ [CheckOutput (selector_cmd label_selector)]
          ++ [Log ERROR
                (Fmt "command to get status of {} has failed. error code: {} {}"
                     [AStr label_selector; AInt returncode; AStr output])])).
Proof.
  intros E. unfold get_pods_status_iterator_by_labels, bind, attempt, check_output.
  rewrite E. cbn. now rewrite <- app_assoc.
Qed.

(** ** The theorems at work *)

(** A check whose callback returns [True]. *)
Lemma ModuleCheck_run_contract_witness :
  let check_cb : M script PyVal := ret (PyBool true) in
  check_cb (titled "-- cilium pods are running --" (start []))
  = (Ok (PyBool true), titled "-- cilium pods are running --" (start []))
  /\ events (titled "-- cilium pods are running --" (start []))
     = [Log INFO (Fmt "-- cilium pods are running --" [])]
  /\ run (ModuleCheck "cilium pods are running" check_cb) (start [])
     = (Ok true,
        mkWorld []
          [Log INFO (Fmt "-- cilium pods are running --" []);
           Log INFO (Fmt ("-- Success --" ++ NL)%string [])]).
Proof.
  intros check_cb. split; [reflexivity|].
  exact (ModuleCheck_run_contract "cilium pods are running" check_cb (start [])
           (PyBool true) (titled "-- cilium pods are running --" (start []))
           eq_refl).
Defined.

(** A group of three checks: the first passes, the second fails, and the
    third, whose callback would raise, is never run. *)
Lemma group_short_circuit_witness :
  let passing : Runnable script := ModuleCheck "nodes are ready" (ret (PyBool true)) in
  let failing : Runnable script := ModuleCheck "cilium pods are running" (ret PyNone) in
  let raising : Runnable script :=
    ModuleCheck "connectivity" (raise (OtherError "KeyboardInterrupt")) in
  let w0 := titled "== L3/4 visibility ==" (start []) in
  let w1 := snd (run passing w0) in
  let w2 := snd (run failing w1) in
  passes [passing] w0 w1
  /\ run failing w1 = (Ok false, w2)
  /\ run (ModuleCheckGroup "L3/4 visibility" (Some [passing; failing; raising]))
       (start [])
     = (Ok false, w2)
  /\ run (ModuleCheckGroup "L3/4 visibility" (Some [passing; failing; raising]))
       (start [])
     = run (ModuleCheckGroup "L3/4 visibility" (Some [passing; failing])) (start []).
Proof.
  intros passing failing raising w0 w1 w2.
  assert (P : passes [passing] w0 w1)
    by (eapply passes_cons; [reflexivity|apply passes_nil]).
  assert (F : run failing w1 = (Ok false, w2)) by reflexivity.
  split; [exact P|]. split; [exact F|].
  exact (group_short_circuit "L3/4 visibility" [passing] failing [raising]
           (start []) w1 w2 P F).
Defined.

(** A heap with one group built without checks. *)
Lemma default_group_edge_case_witness :
  let check : Runnable script := ModuleCheck "nodes are ready" (ret (PyBool true)) in
  let check' : Runnable script := ModuleCheck "cilium pods are running" (ret PyNone) in
  let heap : list (Runnable script) := [default_group "sanity"] in
  heap !! 0%nat = Some (default_group "sanity")
  /\ run_at 0 heap (start []) = (Raise TypeError, titled "== sanity ==" (start []))
  /\ add 0 check heap = (Ok 0%nat, [ModuleCheckGroup "sanity" (Some [check])])
  /\ add 0 check' (snd (add 0 check heap))
     = (Ok 0%nat, [ModuleCheckGroup "sanity" (Some [check; check'])]).
Proof.
  intros check check' heap.
  assert (L : heap !! 0%nat = Some (default_group "sanity")) by reflexivity.
  destruct (default_group_edge_case "sanity" check check' heap 0 (start []) L)
    as (_ & _ & Hrun & _ & Hadd & Hadd').
  split; [exact L|]. split; [exact Hrun|]. split; [exact Hadd|exact Hadd'].
Defined.

(** The flapping session: five rounds. *)
Lemma sampler_schedule_witness :
  let w := start flapping_session in
  let res := [with_verdict (seen_pod "cilium-x7k2p") "Running"] in
  let w' := snd (get_pods_summarized_status_iterator "k8s-app=cilium" w) in
  get_pods_summarized_status_iterator "k8s-app=cilium" w = (Ok res, w')
  /\ scheduled "k8s-app=cilium" w w'.
Proof.
  intros w res w'.
  assert (E : get_pods_summarized_status_iterator "k8s-app=cilium" w = (Ok res, w'))
    by (vm_compute; reflexivity).
  split; [exact E|].
  exact (sampler_schedule "k8s-app=cilium" w res w' E).
Defined.

(** The vanishing session: the pod of the first round is yielded once. *)
Lemma sampler_completeness_witness :
  let w := start vanishing_session in
  let res := [with_verdict (seen_pod "cilium-x7k2p") "CrashLoopBackOff";
              with_verdict (seen_pod "cilium-b9wq4") "Running"] in
  let w' := snd (get_pods_summarized_status_iterator "k8s-app=cilium" w) in
  get_pods_summarized_status_iterator "k8s-app=cilium" w = (Ok res, w')
  /\ (0 < 5)%nat
  /\ In (seen_pod "cilium-x7k2p") (pods_seen "k8s-app=cilium" w 0)
  /\ exists r,
       List.filter (fun r => String.eqb (name r) "cilium-x7k2p") res = [r].
Proof.
  intros w res w'.
  assert (E : get_pods_summarized_status_iterator "k8s-app=cilium" w = (Ok res, w'))
    by (vm_compute; reflexivity).
  assert (L : (0 < 5)%nat) by lia.
  assert (S : In (seen_pod "cilium-x7k2p") (pods_seen "k8s-app=cilium" w 0))
    by (vm_compute; left; reflexivity).
  split; [exact E|]. split; [exact L|]. split; [exact S|].
  exact (sampler_completeness "k8s-app=cilium" w res w' 0
           (seen_pod "cilium-x7k2p") E L S).
Defined.

(** The vanishing session: the pod of the first round keeps the verdict
    of that round, the other pod has the verdict of the last round. *)
Lemma last_observation_wins_witness :
  let w := start vanishing_session in
  let p := seen_pod "cilium-x7k2p" in
  let q := seen_pod "cilium-b9wq4" in
  let res := [with_verdict p "CrashLoopBackOff"; with_verdict q "Running"] in
  let w' := snd (get_pods_summarized_status_iterator "k8s-app=cilium" w) in
  get_pods_summarized_status_iterator "k8s-app=cilium" w = (Ok res, w')
  /\ (0 < 5)%nat
  /\ pods_seen "k8s-app=cilium" w 0 = [] ++ p :: [q]
  /\ List.Forall (fun x => name x <> name p) [q]
  /\ (forall j, (0 < j < 5)%nat ->
                List.Forall (fun x => name x <> name p)
                  (pods_seen "k8s-app=cilium" w j))
  /\ exists wp verdict w1,
       world_seen "k8s-app=cilium" w 0 [] = Some wp
       /\ status_verdict_of (name p) wp = (Ok verdict, w1)
       /\ match fst (get_pod_status (name p) wp) with
          | Ok (Some temp) =>
              verdict = if String.eqb (status temp) STATUS_RUNNING
                        then STATUS_RUNNING else status temp
          | Raise (RuntimeError _) => verdict = STATUS_NOT_RUNNING
          | _ => False
          end
       /\ List.filter (fun r => String.eqb (name r) (name p)) res
          = [mkPodStatus (name p) (ready_status p) verdict (node_name p) (namespace p)]
       /\ (forall r, In r res -> name r = name p -> status r = verdict).
Proof.
  intros w p q res w'.
  assert (E : get_pods_summarized_status_iterator "k8s-app=cilium" w = (Ok res, w'))
    by (vm_compute; reflexivity).
  assert (L : (0 < 5)%nat) by lia.
  assert (S : pods_seen "k8s-app=cilium" w 0 = [] ++ p :: [q])
    by (vm_compute; reflexivity).
  assert (A : List.Forall (fun x => name x <> name p) [q])
    by (constructor; [discriminate|constructor]).
  assert (R : forall j, (0 < j < 5)%nat ->
                        List.Forall (fun x => name x <> name p)
                          (pods_seen "k8s-app=cilium" w j)).
  { intros j Hj.
    assert (Hcases : j = 1%nat \/ j = 2%nat \/ j = 3%nat \/ j = 4%nat) by lia.
    assert (Hq : List.Forall (fun x => name x <> name p) [q])
      by (constructor; [discriminate|constructor]).
    destruct Hcases as [-> | [-> | [-> | ->]]];
      (replace (pods_seen "k8s-app=cilium" w _) with [q]
        by (vm_compute; reflexivity)); exact Hq. }
  split; [exact E|]. split; [exact L|]. split; [exact S|].
  split; [exact A|]. split; [exact R|].
  exact (last_observation_wins "k8s-app=cilium" w res w' 0 [] p [q] E L S A R).
Defined.

(** * Further properties *)

(** ** Splitting and joining text *)

Lemma split_free sep s : free_of sep s = true -> split sep s = [s].
Proof.
  induction s as [|c s IH]; cbn; [reflexivity|].
  destruct (Ascii.eqb c sep); cbn; [discriminate|].
  intros F. now rewrite (IH F).
Qed.

Lemma split_field sep field rest :
  free_of sep field = true ->
  split sep (field ++ String sep rest) = field :: split sep rest.
Proof.
  induction field as [|c field IH]; cbn.
  - now rewrite Ascii.eqb_refl.
  - destruct (Ascii.eqb c sep); cbn; [discriminate|].
    intros F. now rewrite (IH F).
Qed.

(** [split] undoes [join] on fields that hold no separator. *)
Lemma split_join sep fields :
  fields <> [] ->
  forallb (free_of sep) fields = true ->
  split sep (join (String sep EmptyString) fields) = fields.
Proof.
  induction fields as [|field fields IH]; [congruence|]. intros _.
  cbn [forallb]. intros F. apply andb_prop in F as [Ff Fr].
  destruct fields as [|field' fields].
  - cbn [join]. now apply split_free.
  - change (join (String sep EmptyString) (field :: field' :: fields))
      with (field ++ String sep (join (String sep EmptyString) (field' :: fields)))%string.
    rewrite (split_field _ _ _ Ff). f_equal. apply IH; [discriminate|exact Fr].
Qed.

Lemma splitlines_line line rest :
  one_line line = true ->
  splitlines_from false (line ++ NL ++ rest)%string
  = line :: splitlines_from false rest.
Proof.
  induction line as [|c line IH]; cbn [one_line].
  - reflexivity.
  - intros F. apply andb_prop in F as [Fc Fl].
    cbn [String.append splitlines_from]. cbn [andb].
    apply negb_true_iff in Fc. rewrite Fc. now rewrite (IH Fl).
Qed.

(** [splitlines] gives back the lines of a text whose every line is
    closed by a line feed. *)
Lemma splitlines_unlines lines :
  forallb one_line lines = true -> splitlines (unlines lines) = lines.
Proof.
  unfold splitlines. induction lines as [|line lines IH]; [reflexivity|].
  cbn [forallb unlines]. intros F. apply andb_prop in F as [Fl Fr].
  rewrite (splitlines_line _ _ Fl). now rewrite (IH Fr).
Qed.

(** No line that [splitlines] returns holds a line boundary. *)
Lemma splitlines_one_line after_cr s :
  forallb one_line (splitlines_from after_cr s) = true.
Proof.
  revert after_cr. induction s as [|c s IH]; intros after_cr; [reflexivity|].
  cbn [splitlines_from].
  destruct (after_cr && Nat.eqb (nat_of_ascii c) 10)%bool; [apply IH|].
  destruct (is_line_boundary c) eqn:B.
  - cbn. apply IH.
  - specialize (IH false). destruct (splitlines_from false s) as [|line lines].
    + cbn. now rewrite B.
    + cbn in *. now rewrite B.
Qed.

(** ** getopts *)

Lemma options_get_set_eq k v opts : options_get k (options_set k v opts) = Some v.
Proof.
  induction opts as [|[k' v'] opts IH]; cbn.
  - now rewrite String.eqb_refl.
  - destruct (String.eqb k k') eqn:E; cbn; rewrite ?String.eqb_refl, ?E; auto.
Qed.

Lemma options_get_set_ne k k' v opts :
  k <> k' -> options_get k' (options_set k v opts) = options_get k' opts.
Proof.
  intros Hne. induction opts as [|[k0 v0] opts IH]; cbn.
  - destruct (String.eqb k' k) eqn:E; [|reflexivity].
    apply String.eqb_eq in E. congruence.
  - destruct (String.eqb k k0) eqn:E; cbn.
    + apply String.eqb_eq in E. subst k0.
      destruct (String.eqb k' k) eqn:E'; [|reflexivity].
      apply String.eqb_eq in E'. congruence.
    + now rewrite IH.
Qed.

Lemma getopts_from_untouched k argv : forall opts opts',
  getopts_from argv opts = Ok opts' ->
  ~ In k argv ->
  options_get k opts' = options_get k opts.
Proof.
  induction argv as [|arg rest IH]; intros opts opts'; cbn [getopts_from].
  - now intros [= <-].
  - destruct arg as [|c arg]; [discriminate|]. intros E Hk.
    rewrite (IH _ _ E) by (intros Hin; apply Hk; now right).
    destruct (Ascii.eqb c "-"); [|reflexivity].
    apply options_get_set_ne. intros <-. apply Hk. now left.
Qed.

(** X1: [getopts] raises exactly when one of the arguments is the
    empty string, and then it is [IndexError], from [argv[0][0]]. *)
Theorem getopts_raises_on_empty_argument argv :
  (In EmptyString argv <-> getopts argv = Raise IndexError)
  /\ (forall e, getopts argv = Raise e -> e = IndexError).
Proof.
  unfold getopts. generalize (@nil (string * option string)) as opts.
  induction argv as [|arg rest IH]; intros opts; cbn [getopts_from].
  - split; [split; [intros []|discriminate]|discriminate].
  - destruct arg as [|c arg].
    + split; [split; [reflexivity|now left]|now intros e [= <-]].
    + destruct (IH (if Ascii.eqb c "-"
                    then options_set (String c arg)
                           match rest with [] => None | value :: _ => Some value end
                           opts
                    else opts)) as [[IH1 IH2] IH3].
      split; [split|exact IH3].
      * intros [Habs|Hin]; [discriminate|auto].
      * intros E. right. auto.
Qed.

(** X2: the keys of the dict that [getopts] returns are exactly the
    arguments that start with a dash, wherever they stand: an argument
    that serves as the value of an option is a key too when it starts
    with a dash, and no other argument is a key. *)
Theorem getopts_keys argv opts k :
  getopts argv = Ok opts ->
  (options_get k opts <> None <-> In k argv /\ is_option k = true).
Proof.
  unfold getopts.
  assert (G : forall start,
             getopts_from argv start = Ok opts ->
             (options_get k opts <> None
              <-> options_get k start <> None \/ (In k argv /\ is_option k = true))).
  { induction argv as [|arg rest IH]; intros start; cbn [getopts_from].
    - intros [= <-]. cbn. tauto.
    - destruct arg as [|c arg]; [discriminate|]. intros E.
      rewrite (IH _ E). cbn [In].
      destruct (Ascii.eqb c "-") eqn:Ec.
      + destruct (String.eqb_spec (String c arg) k) as [<-|Hne].
        * rewrite options_get_set_eq. cbn [is_option]. rewrite Ec.
          split; [intros _|intros _; left; discriminate]. right. auto.
        * rewrite (options_get_set_ne _ _ _ _ Hne). tauto.
      + split; [tauto|]. intros [Hs|[[<-|Hin] Hopt]]; auto.
        cbn in Hopt. congruence. }
  intros E. rewrite (G _ E). cbn. tauto.
Qed.

(** X3: the value of an option is the argument that follows its last
    occurrence, and [None] when that occurrence is the last argument;
    earlier occurrences are overridden. *)
Theorem getopts_last_occurrence before k after opts :
  getopts (before ++ k :: after) = Ok opts ->
  is_option k = true ->
  ~ In k after ->
  options_get k opts = Some (List.hd_error after).
Proof.
  unfold getopts. generalize (@nil (string * option string)) as start.
  induction before as [|arg before IH]; intros start.
  - cbn [app getopts_from]. destruct k as [|c k]; [discriminate|].
    intros E Hopt Hk. cbn in Hopt. rewrite Hopt in E.
    rewrite (getopts_from_untouched _ _ _ _ E Hk), options_get_set_eq.
    now destruct after.
  - cbn [app getopts_from]. destruct arg as [|c arg]; [discriminate|].
    intros E. eapply IH, E.
Qed.

(** ** get_nodes, get_pod_config and get_resource_status *)

Lemma free_of_app c s t :
  free_of c (s ++ t)%string = (free_of c s && free_of c t)%bool.
Proof.
  induction s as [|c' s IH]; cbn; [reflexivity|].
  now rewrite IH, andb_assoc.
Qed.

Lemma append_char_nonempty s c t :
  String.eqb (s ++ String c t)%string EmptyString = false.
Proof. destruct s; reflexivity. Qed.

Section Queries.
Context {C : Type} `{Shell C}.
Implicit Types (w : World C).

(** X4: when the command prints one node name per line, each closed by
    a line feed, [get_nodes] returns exactly these names, in order, and
    logs nothing. *)
Theorem get_nodes_lines w nodes c' :
  shell get_nodes_cmd (cluster w) = (Printed (unlines nodes), c') ->
  forallb one_line nodes = true ->
  get_nodes w = (Ok nodes, mkWorld c' (events w ++ [CheckOutput get_nodes_cmd])).
Proof.
  intros E Hlines. unfold get_nodes, bind, attempt, check_output. rewrite E.
  cbn. now rewrite (splitlines_unlines _ Hlines).
Qed.

(** X5: [get_nodes] raises exactly when the output of its command
    cannot be decoded, and the exception is then [UnicodeDecodeError];
    a failed command raises nothing: it gives the empty list, the same
    answer as for a cluster without nodes.  No name that [get_nodes]
    returns holds a line break. *)
Theorem get_nodes_outcomes w :
  ((exists e, fst (get_nodes w) = Raise e)
   <-> exists c', shell get_nodes_cmd (cluster w) = (Undecodable, c'))
  /\ (forall e, fst (get_nodes w) = Raise e -> e = UnicodeDecodeError)
  /\ (forall returncode output c',
        shell get_nodes_cmd (cluster w) = (Failed returncode output, c') ->
        fst (get_nodes w) = Ok [])
  /\ (forall nodes, fst (get_nodes w) = Ok nodes -> forallb one_line nodes = true).
Proof.
  unfold get_nodes, bind, attempt, check_output.
  destruct (shell get_nodes_cmd (cluster w)) as [[text| |returncode output] c']; cbn.
  - split; [split; [intros (? & [=])|intros (? & [=])]|].
    split; [discriminate|]. split; [discriminate|].
    intros nodes [= <-]. apply splitlines_one_line.
  - split; [split; eauto|]. split; [now intros e [= <-]|].
    split; discriminate.
  - split; [split; [intros (? & [=])|intros (? & [=])]|].
    split; [discriminate|]. split; [reflexivity|]. now intros nodes [= <-].
Qed.



(** X8: the name that [get_resource_status] returns is what stands
    between the first and the second space of the output, so it keeps
    the line feed that ends the line the command printed. *)
Theorem get_resource_status_keeps_line_feed type full_name label w ns nm c' :
  shell (get_resource_status_cmd type full_name label) (cluster w)
  = (Printed (ns ++ " " ++ nm ++ NL)%string, c') ->
  free_of " " ns = true ->
  free_of " " nm = true ->
  fst (get_resource_status type full_name label w)
  = Ok (mkResourceStatus ns (nm ++ NL)%string).
Proof.
  intros E Fns Fnm. unfold get_resource_status, bind, attempt, check_output.
  rewrite E. cbn [fst snd].
  change (ns ++ " " ++ nm ++ NL)%string with (ns ++ String " " (nm ++ NL))%string.
  rewrite append_char_nonempty, (split_field _ _ _ Fns).
  rewrite split_free by (rewrite free_of_app, Fnm; reflexivity).
  reflexivity.
Qed.
End Queries.

(** ** get_pod_status and get_pods_status_iterator_by_labels *)

(** The pods that the final loop of the selector query yields passed the
    filter and come from a line each. *)
Lemma pod_of_line_some filtered_pod_list line p :
  pod_of_line filtered_pod_list line = Ok (Some p) ->
  contains filtered_pod_list (name p) = true
  /\ exists more,
       split " " line
       = name p :: ready_status p :: status p :: node_name p :: namespace p :: more.
Proof.
  unfold pod_of_line.
  destruct (split " " line) as [|f0 [|f1 [|f2 [|f3 [|f4 more]]]]];
    try discriminate;
    destruct (contains filtered_pod_list f0) eqn:F; cbn; try discriminate.
  intros [= <-]. cbn. eauto.
Qed.

Lemma pod_of_line_raise filtered_pod_list line e :
  pod_of_line filtered_pod_list line = Raise e ->
  e = IndexError
  /\ (length (split " " line) < 5)%nat
  /\ exists f0 more, split " " line = f0 :: more
                     /\ contains filtered_pod_list f0 = true.
Proof.
  unfold pod_of_line. pose proof (split_nonempty " " line) as Hne.
  destruct (split " " line) as [|f0 [|f1 [|f2 [|f3 [|f4 more]]]]];
    [congruence|..];
    destruct (contains filtered_pod_list f0) eqn:F; cbn; try discriminate.
  all: intros [= <-]; split; [reflexivity|split; [lia|eauto]].
Qed.

(** X12: every pod that the selector query yields has a name that is
    one of the names of the filter output, and its five fields are the
    first five fields of one line of the selector output. *)
Theorem yielded_pods_pass_the_filter filtered_pod_list lines p :
  In p (yields (pods_of_lines filtered_pod_list lines)) ->
  contains filtered_pod_list (name p) = true
  /\ exists line more,
       In line lines
       /\ split " " line
          = name p :: ready_status p :: status p :: node_name p :: namespace p :: more.
Proof.
  induction lines as [|line lines IH]; cbn [pods_of_lines]; [intros []|].
  destruct (pod_of_line filtered_pod_list line) as [[q|]|e] eqn:E; cbn [yields].
  - intros [<-|Hin].
    + destruct (pod_of_line_some _ _ _ E) as (F & more & S).
      split; [exact F|]. exists line, more. split; [now left|exact S].
    + destruct (IH Hin) as (F & l & more & Hl & S).
      split; [exact F|]. exists l, more. split; [now right|exact S].
  - intros Hin. destruct (IH Hin) as (F & l & more & Hl & S).
    split; [exact F|]. exists l, more. split; [now right|exact S].
  - intros [].
Qed.

(** X13: the selector query ends with an exception only on a line of
    fewer than five fields whose first field passed the filter, and the
    exception is [IndexError]; a short line of a pod that the filter
    drops is skipped and raises nothing. *)
Theorem selector_lines_raise_on_short_line filtered_pod_list lines e :
  finish (pods_of_lines filtered_pod_list lines) = Some e ->
  e = IndexError
  /\ exists line f0 more,
       In line lines
       /\ split " " line = f0 :: more
       /\ contains filtered_pod_list f0 = true
       /\ (length (split " " line) < 5)%nat.
Proof.
  induction lines as [|line lines IH]; cbn [pods_of_lines]; [discriminate|].
  destruct (pod_of_line filtered_pod_list line) as [[q|]|e'] eqn:E; cbn [finish].
  - intros Hf. destruct (IH Hf) as (-> & l & f0 & more & Hl & S & F & L).
    split; [reflexivity|]. exists l, f0, more. auto using in_cons.
  - intros Hf. destruct (IH Hf) as (-> & l & f0 & more & Hl & S & F & L).
    split; [reflexivity|]. exists l, f0, more. auto using in_cons.
  - intros [= <-]. destruct (pod_of_line_raise _ _ _ E) as (-> & L & f0 & more & S & F).
    split; [reflexivity|]. exists line, f0, more. auto using in_eq.
Qed.

Lemma selector_lines_end_with_index_error filtered_pod_list lines e :
  finish (pods_of_lines filtered_pod_list lines) = Some e -> e = IndexError.
Proof.
  induction lines as [|line lines IH]; cbn [pods_of_lines]; [discriminate|].
  destruct (pod_of_line filtered_pod_list line) as [[q|]|e'] eqn:E; cbn [finish]; auto.
  intros [= <-]. now destruct (pod_of_line_raise _ _ _ E).
Qed.

Section PodQueries.
Context {C : Type} `{Shell C}.
Implicit Types (w : World C).


(** X10: when the command prints five or more fields separated by single
    spaces, [get_pod_status] returns the pod made of the first five,
    in the order name, ready status, status, node and namespace; the
    fields after the fifth are ignored. *)
Theorem get_pod_status_fields full_pod_name w f0 f1 f2 f3 f4 more c' :
  shell (get_pod_status_cmd full_pod_name) (cluster w)
  = (Printed (join " " (f0 :: f1 :: f2 :: f3 :: f4 :: more)), c') ->
  forallb (free_of " ") (f0 :: f1 :: f2 :: f3 :: f4 :: more) = true ->
  fst (get_pod_status full_pod_name w) = Ok (Some (mkPodStatus f0 f1 f2 f3 f4)).
Proof.
  intros E F. unfold get_pod_status, bind, attempt, check_output. rewrite E.
  cbn [fst snd].
  rewrite (split_join " " (f0 :: f1 :: f2 :: f3 :: f4 :: more)) by (discriminate || exact F).
  change (join " " (f0 :: f1 :: f2 :: f3 :: f4 :: more))
    with (f0 ++ String " " (join " " (f1 :: f2 :: f3 :: f4 :: more)))%string.
  rewrite append_char_nonempty. reflexivity.
Qed.

(** X11: when the command prints fewer than five fields,
    [get_pod_status] raises [IndexError], which is not the
    [RuntimeError] that its callers catch. *)
Theorem get_pod_status_short_output full_pod_name w fields c' :
  shell (get_pod_status_cmd full_pod_name) (cluster w)
  = (Printed (join " " fields), c') ->
  forallb (free_of " ") fields = true ->
  join " " fields <> EmptyString ->
  (length fields < 5)%nat ->
  fst (get_pod_status full_pod_name w) = Raise IndexError.
Proof.
  intros E F Hne L. unfold get_pod_status, bind, attempt, check_output. rewrite E.
  cbn [fst snd].
  destruct (String.eqb_spec (join " " fields) EmptyString) as [Heq|_]; [congruence|].
  assert (Hf : fields <> []) by (intros ->; now apply Hne).
  rewrite (split_join " " fields Hf F).
  destruct fields as [|g0 [|g1 [|g2 [|g3 [|g4 more]]]]]; cbn in L; try lia;
    try congruence; reflexivity.
Qed.


(** X15: [must_exist] changes neither what the selector query yields or
    raises nor what it asks of the cluster: with it and without it the
    outcome and the cluster are the same; the flag only adds log
    records. *)
Theorem must_exist_only_logs label_selector host_ip_filter w :
  fst (get_pods_status_iterator_by_labels label_selector host_ip_filter true w)
  = fst (get_pods_status_iterator_by_labels label_selector host_ip_filter false w)
  /\ cluster (snd (get_pods_status_iterator_by_labels label_selector host_ip_filter
                     true w))
     = cluster (snd (get_pods_status_iterator_by_labels label_selector host_ip_filter
                       false w))
  /\ exists logged,
       events (snd (get_pods_status_iterator_by_labels label_selector host_ip_filter
                      true w))
       = events (snd (get_pods_status_iterator_by_labels label_selector host_ip_filter
                        false w)) ++ logged
       /\ forallb (fun e => match e with Log ERROR _ => true | _ => false end) logged
          = true.
Proof.
  unfold get_pods_status_iterator_by_labels, bind, attempt, check_output. cbv zeta.
  generalize (selector_cmd label_selector) as cmd.
  generalize (host_ip_filter_cmd host_ip_filter) as fcmd. intros fcmd cmd.
  destruct (shell cmd (cluster w)) as [[text| |returncode output] c1]; cbn.
  - destruct (String.eqb text EmptyString); cbn.
    + repeat split. eexists [_]. split; reflexivity.
    + destruct (shell fcmd c1) as [[ftext| |frc fout] c2]; cbn.
      * destruct (String.eqb ftext EmptyString); cbn.
        -- repeat split. eexists [_]. split; reflexivity.
        -- repeat split. exists []. now rewrite app_nil_r.
      * repeat split. exists []. now rewrite app_nil_r.
      * repeat split. exists []. now rewrite app_nil_r.
  - repeat split. exists []. now rewrite app_nil_r.
  - repeat split. exists []. now rewrite app_nil_r.
Qed.
End PodQueries.

(** ** More on the groups *)

Section Groups.
Context {C : Type}.
Implicit Types (w : World C) (check : Runnable C) (checks : list (Runnable C)).

Lemma for_checks_true_inv checks w w' :
  for_checks run checks w = (Ok true, w') -> passes checks w w'.
Proof.
  revert w. induction checks as [|check checks IH]; intros w.
  - intros [= <-]. constructor.
  - rewrite for_checks_cons. destruct (run check w) as [[[|]|e] w1] eqn:E;
      [|discriminate..].
    intros Hrest. econstructor; [exact E|now apply IH].
Qed.

Lemma for_checks_false_inv checks w w' :
  for_checks run checks w = (Ok false, w') ->
  exists before check after wk,
    checks = before ++ check :: after
    /\ passes before w wk
    /\ run check wk = (Ok false, w').
Proof.
  revert w. induction checks as [|check checks IH]; intros w.
  - discriminate.
  - rewrite for_checks_cons. destruct (run check w) as [[[|]|e] w1] eqn:E;
      [| |discriminate].
    + intros Hrest. destruct (IH _ Hrest) as (before & c & after & wk & -> & P & F).
      exists (check :: before), c, after, wk.
      split; [reflexivity|]. split; [econstructor; eauto|exact F].
    + intros [= <-]. exists [], check, checks, w.
      split; [reflexivity|]. split; [constructor|exact E].
Qed.

(** X16: a group returns [True] exactly when every one of its checks,
    run in order, each in the world that the one before left, returns
    [True]; the world at the end is the one that the last check left. *)
Theorem group_true_iff_all_pass group_name checks w w' :
  run (ModuleCheckGroup group_name (Some checks)) w = (Ok true, w')
  <-> passes checks (titled ("== " ++ group_name ++ " ==")%string w) w'.
Proof.
  rewrite run_group_eq. split.
  - apply for_checks_true_inv.
  - apply passes_all_true.
Qed.

(** X17: a group returns [False] only because one of its checks
    returned [False] after all the checks before it had returned
    [True]; there is no other way to fail. *)
Theorem group_false_has_a_failing_check group_name checks w w' :
  run (ModuleCheckGroup group_name (Some checks)) w = (Ok false, w') ->
  exists before check after wk,
    checks = before ++ check :: after
    /\ passes before (titled ("== " ++ group_name ++ " ==")%string w) wk
    /\ run check wk = (Ok false, w').
Proof. rewrite run_group_eq. apply for_checks_false_inv. Qed.

(** X18: a group catches nothing: when a check raises after the checks
    before it passed, the group's [run] raises the same exception in the
    world that the check left, and the later checks are not run. *)
Theorem group_propagates_exception group_name before check after w wk e wk' :
  passes before (titled ("== " ++ group_name ++ " ==")%string w) wk ->
  run check wk = (Raise e, wk') ->
  run (ModuleCheckGroup group_name (Some (before ++ check :: after))) w
  = (Raise e, wk').
Proof.
  intros P E. rewrite run_group_eq, (for_checks_passes _ _ _ _ P).
  now rewrite for_checks_cons, E.
Qed.

Lemma add_all_some self group_name checks : forall members (heap : list (Runnable C)),
  heap !! self = Some (ModuleCheckGroup group_name (Some members)) ->
  add_all self checks heap
  = (Ok self, <[self := ModuleCheckGroup group_name (Some (members ++ checks))]> heap).
Proof.
  induction checks as [|check checks IH]; intros members heap Hself.
  - cbn [add_all]. rewrite app_nil_r. now rewrite list_insert_id.
  - assert (Hlt : (self < length heap)%nat) by (eapply lookup_lt_Some; eauto).
    cbn [add_all]. unfold add at 1. rewrite Hself.
    rewrite (IH (members ++ [check])) by (now apply list_lookup_insert_eq).
    now rewrite list_insert_insert_eq, <- app_assoc.
Qed.

(** X19: on a group built without checks, chained [add] calls of
    [ModuleCheck] objects return the group itself and leave it with
    exactly these checks, in the order of the calls; [run] on the group
    then runs them in that order. *)
Theorem add_all_appends_in_order self group_name checks (heap : list (Runnable C)) :
  heap !! self = Some (default_group group_name) ->
  checks <> [] ->
  forallb is_module_check checks = true ->
  fst (add_all self checks heap) = Ok self
  /\ snd (add_all self checks heap) !! self
     = Some (ModuleCheckGroup group_name (Some checks))
  /\ (forall w, run_at self (snd (add_all self checks heap)) w
                = run (ModuleCheckGroup group_name (Some checks)) w).
Proof.
  intros Hself Hne _.
  assert (Hlt : (self < length heap)%nat) by (eapply lookup_lt_Some; eauto).
  assert (E : add_all self checks heap
              = (Ok self, <[self := ModuleCheckGroup group_name (Some checks)]> heap)).
  { destruct checks as [|check checks]; [congruence|].
    cbn [add_all]. unfold add at 1. rewrite Hself. cbn [default_group app].
    rewrite (add_all_some _ group_name _ [check])
      by (now apply list_lookup_insert_eq).
    now rewrite list_insert_insert_eq. }
  rewrite E. cbn [fst snd]. split; [reflexivity|].
  split; [now apply list_lookup_insert_eq|].
  intros w. unfold run_at. now rewrite list_lookup_insert_eq by exact Hlt.
Qed.
End Groups.

(** ** More on the sampler *)

Lemma dict_set_in k v d kv :
  In kv (dict_set k v d) -> kv = (k, v) \/ In kv d.
Proof.
  induction d as [|[k0 v0] d IH]; cbn.
  - intros [<-|[]]. now left.
  - destruct (String.eqb k k0); cbn.
    + intros [<-|Hin]; auto.
    + intros [<-|Hin]; auto. destruct (IH Hin); auto.
Qed.

Lemma well_keyed_names d :
  well_keyed d -> List.NoDup (map name (map snd d)).
Proof.
  intros [Hnd Hall].
  replace (map name (map snd d)) with (map fst d); [exact Hnd|].
  clear Hnd. induction Hall as [|[k v] d Hk _ IH]; [reflexivity|].
  cbn in *. now rewrite IH, Hk.
Qed.

Section SamplerMore.
Context {C : Type} `{Shell C}.
Implicit Types (w : World C) (m : dict) (p : PodStatus).

Lemma raises_only_bind {A B} allowed (c : M C A) (k : A -> M C B) :
  raises_only allowed c -> (forall a, raises_only allowed (k a)) ->
  raises_only allowed (bind c k).
Proof.
  intros Rc Rk w e w'. unfold bind.
  destruct (c w) as [[a|e1] w1] eqn:Ec.
  - apply Rk.
  - intros [= <- <-]. eapply Rc, Ec.
Qed.

Lemma raises_only_emit allowed ev : raises_only allowed (@emit C ev).
Proof. intros w e w'. discriminate. Qed.

Lemma get_pod_status_raises_only full_pod_name :
  raises_only
    (fun e => (exists msg, e = RuntimeError msg) \/ e = IndexError
              \/ e = UnicodeDecodeError)
    (get_pod_status full_pod_name).
Proof.
  intros w e w'. unfold get_pod_status, bind, attempt, check_output. cbv zeta.
  generalize (get_pod_status_cmd full_pod_name) as cmd. intros cmd.
  destruct (shell cmd (cluster w)) as [[text| |returncode output] c']; cbn.
  - destruct (String.eqb text EmptyString); cbn; [intros [= <- <-]; eauto|].
    unfold index.
    destruct (split " " text) as [|f0 [|f1 [|f2 [|f3 [|f4 fields]]]]]; cbn.
    all: intros [=]; subst; auto.
  - intros [= <- <-]. auto.
  - discriminate.
Qed.

Lemma status_verdict_of_raises_only pod_name :
  raises_only
    (fun e => e = AttributeError \/ e = IndexError \/ e = UnicodeDecodeError)
    (status_verdict_of pod_name).
Proof.
  intros w e w'. unfold status_verdict_of, bind, attempt.
  destruct (get_pod_status pod_name w) as [[[temp|]|e1] w1] eqn:E; cbn.
  - destruct (negb (String.eqb (status temp) STATUS_RUNNING)); discriminate.
  - intros [= <- <-]. now left.
  - destruct (get_pod_status_raises_only _ _ _ _ E) as [(msg & ->)|[->| ->]].
    + discriminate.
    + intros [= <- <-]. auto.
    + intros [= <- <-]. auto.
Qed.

Lemma for_pods_raises_only pods m :
  raises_only
    (fun e => e = AttributeError \/ e = IndexError \/ e = UnicodeDecodeError)
    (for_pods pods m).
Proof.
  revert m. induction pods as [|p pods IH]; intros m; cbn [for_pods].
  - intros w e w'. discriminate.
  - apply raises_only_bind; [|exact IH]. unfold observe.
    apply raises_only_bind; [apply status_verdict_of_raises_only|].
    intros v w e w'. discriminate.
Qed.

(** What the selector query can give: an exception of its two commands,
    nothing, or the pods of its lines. *)
Lemma selector_query_inv label_selector host_ip_filter must_exist w r w' :
  get_pods_status_iterator_by_labels label_selector host_ip_filter must_exist w
  = (r, w') ->
  r = Raise UnboundLocalError
  \/ r = Raise UnicodeDecodeError
  \/ r = Ok empty_gen
  \/ exists filtered_pod_list lines, r = Ok (pods_of_lines filtered_pod_list lines).
Proof.
  unfold get_pods_status_iterator_by_labels, bind, attempt, check_output. cbv zeta.
  generalize (selector_cmd label_selector) as cmd.
  generalize (host_ip_filter_cmd host_ip_filter) as fcmd. intros fcmd cmd.
  destruct (shell cmd (cluster w)) as [[text| |returncode output] c1]; cbn.
  - destruct (String.eqb text EmptyString); cbn.
    + destruct must_exist; cbn; intros [= <- <-]; auto.
    + destruct (shell fcmd c1) as [[ftext| |frc fout] c2]; cbn.
      * destruct (String.eqb ftext EmptyString); [destruct must_exist|]; cbn.
        all: intros [= <- <-]; eauto 6.
      * intros [= <- <-]; auto.
      * intros [= <- <-]; auto.
  - intros [= <- <-]; auto.
  - intros [= <- <-]; auto.
Qed.

Lemma round_raises_only label_selector m :
  raises_only
    (fun e => e = AttributeError \/ e = IndexError \/ e = UnboundLocalError
              \/ e = UnicodeDecodeError)
    (round label_selector m).
Proof.
  unfold round.
  apply raises_only_bind; [apply raises_only_emit|intros _].
  apply raises_only_bind; [apply raises_only_emit|intros _].
  intros w e w'. unfold bind at 1.
  destruct (get_pods_status_iterator_by_labels label_selector [] false w)
    as [r wg] eqn:Eg.
  destruct (selector_query_inv _ _ _ _ _ _ Eg) as [->|[->|[->|(f & l & ->)]]].
  - intros [= <- <-]. auto.
  - intros [= <- <-]. auto.
  - cbn. discriminate.
  - unfold bind at 1.
    destruct (for_pods (yields (pods_of_lines f l)) m wg) as [[m1|e1] w1] eqn:Ef.
    + unfold bind at 1.
      destruct (finish (pods_of_lines f l)) as [e2|] eqn:Efin; cbn.
      * intros [= <- <-]. right. left.
        eapply selector_lines_end_with_index_error, Efin.
      * discriminate.
    + intros [= <- <-].
      destruct (for_pods_raises_only _ _ _ _ _ Ef) as [->|[->| ->]]; auto.
Qed.

Lemma rounds_raises_only attempts label_selector m :
  raises_only
    (fun e => e = AttributeError \/ e = IndexError \/ e = UnboundLocalError
              \/ e = UnicodeDecodeError)
    (rounds attempts label_selector m).
Proof.
  revert m. induction attempts as [|n IH]; intros m; cbn [rounds].
  - intros w e w'. discriminate.
  - apply raises_only_bind; [apply round_raises_only|exact IH].
Qed.


Lemma for_pods_entries pods m w m' w' kv :
  for_pods pods m w = (Ok m', w') ->
  In kv m' ->
  In kv m \/ exists p verdict, In p pods /\ snd kv = with_verdict p verdict.
Proof.
  revert m w. induction pods as [|p pods IH]; intros m w; cbn [for_pods].
  - intros [= <- <-]. auto.
  - intros E Hin. apply bind_inv_ok in E as (m1 & w1 & E1 & E).
    apply observe_inv in E1 as (v & _ & ->).
    destruct (IH _ _ E Hin) as [Hm|(q & vq & Hq & Hkv)].
    + apply dict_set_in in Hm as [->|Hm]; [|auto].
      right. exists p, v. split; [now left|reflexivity].
    + right. exists q, vq. split; [now right|exact Hkv].
Qed.

Lemma rounds_entries label_selector w attempts : forall m wn kv,
  rounds attempts label_selector [] w = (Ok m, wn) ->
  In kv m ->
  exists i p verdict,
    (i < attempts)%nat
    /\ In p (pods_seen label_selector w i)
    /\ snd kv = with_verdict p verdict.
Proof.
  induction attempts as [|n IH]; intros m wn kv.
  - cbn [rounds]. intros [= <- <-] [].
  - rewrite rounds_snoc. intros E Hin.
    apply bind_inv_ok in E as (mn & w1 & En & Er).
    apply round_inv in Er as (pods & wg & wf & Eg & Ef & _ & _).
    destruct (for_pods_entries _ _ _ _ _ _ Ef Hin) as [Hm|(p & v & Hp & Hkv)].
    + destruct (IH _ _ _ En Hm) as (i & p & v & Hi & Hp & Hkv).
      exists i, p, v. split; [lia|auto].
    + exists n, p, v. split; [lia|]. split; [|exact Hkv].
      now rewrite (pods_seen_eq _ _ _ _ _ _ _ En Eg).
Qed.

(** X21: the sampler invents nothing and repeats nothing: every record
    that a session yields is a pod that the selector query returned in
    one of the 5 rounds, with only its status replaced, and no two
    records have the same name. *)
Theorem sampler_yields_seen_pods_once label_selector w res w' :
  get_pods_summarized_status_iterator label_selector w = (Ok res, w') ->
  List.NoDup (map name res)
  /\ forall r, In r res ->
       exists i p verdict,
         (i < 5)%nat
         /\ In p (pods_seen label_selector w i)
         /\ r = with_verdict p verdict.
Proof.
  intros E. apply sampler_inv in E as (m5 & w5 & E5 & -> & _). split.
  - apply well_keyed_names.
    now destruct (rounds_keeps _ _ _ _ _ _ E5 well_keyed_nil).
  - intros r Hr. apply in_map_iff in Hr as (kv & <- & Hkv).
    eapply rounds_entries; eauto.
Qed.

Lemma selector_query_without_pods label_selector host_ip_filter w c' :
  shell (selector_cmd label_selector) (cluster w) = (Printed EmptyString, c') ->
  get_pods_status_iterator_by_labels label_selector host_ip_filter false w
  = (Ok empty_gen,
     mkWorld c' (events w ++ [CheckOutput (selector_cmd label_selector)])).
Proof.
  intros E. unfold get_pods_status_iterator_by_labels, bind, attempt, check_output.
  cbv zeta. rewrite E. reflexivity.
Qed.

Lemma round_without_pods label_selector m w :
  (forall c, exists c', shell (selector_cmd label_selector) c = (Printed EmptyString, c')) ->
  exists c',
    round label_selector m w
    = (Ok m, mkWorld c' (events w ++ round_events label_selector [])).
Proof.
  intros Hsilent. destruct (Hsilent (cluster w)) as (c' & E). exists c'.
  unfold round. unfold bind at 1. cbn [stdout_write emit].
  unfold bind at 1. cbn [stdout_flush emit].
  erewrite bind_ok by (apply selector_query_without_pods; exact E).
  cbn [yields empty_gen for_pods finish]. unfold bind, ret, time_sleep, emit.
  cbn [cluster events]. unfold round_events. now rewrite <- !app_assoc.
Qed.

(** X22: on a cluster where the selector matches no pod, a session
    yields nothing, comes to its end and logs nothing: besides the 5
    selector commands it only writes its dots, sleeps and breaks the
    line. *)
Theorem sampler_without_pods label_selector w :
  (forall c, exists c', shell (selector_cmd label_selector) c = (Printed EmptyString, c')) ->
  exists w',
    get_pods_summarized_status_iterator label_selector w = (Ok [], w')
    /\ events w'
       = events w ++ concat (repeat (round_events label_selector []) 5)
           ++ [StdoutWrite NL; StdoutFlush].
Proof.
  intros Hsilent.
  assert (R : forall n w0, exists wn,
               rounds n label_selector [] w0 = (Ok [], wn)
               /\ events wn
                  = events w0 ++ concat (repeat (round_events label_selector []) n)).
  { induction n as [|n IH]; intros w0; cbn [rounds repeat concat].
    - exists w0. split; [reflexivity|now rewrite app_nil_r].
    - destruct (round_without_pods label_selector [] w0 Hsilent) as (c' & Er).
      destruct (IH (mkWorld c' (events w0 ++ round_events label_selector [])))
        as (wn & En & Ev).
      exists wn. rewrite (bind_ok _ _ _ _ _ Er). split; [exact En|].
      rewrite Ev. cbn [events]. now rewrite <- app_assoc. }
  destruct (R 5%nat w) as (w5 & E5 & Ev).
  unfold get_pods_summarized_status_iterator. rewrite (bind_ok _ _ _ _ _ E5).
  eexists. split; [reflexivity|]. cbn [events]. rewrite Ev.
  now rewrite <- !app_assoc.
Qed.
End SamplerMore.

(** ** The pod that is not found *)

Section NotFound.
Context {C : Type} `{Shell C}.
Implicit Types (w : World C) (m : dict) (p : PodStatus).

Lemma state_seen_eq label_selector w i mi wi pods wg dealt :
  rounds i label_selector [] w = (Ok mi, wi) ->
  round_head label_selector wi = (Ok pods, wg) ->
  state_seen label_selector w i dealt = Some (for_pods dealt mi wg).
Proof. intros Ei Eg. unfold state_seen. now rewrite Ei, Eg. Qed.

Lemma state_seen_inv label_selector w i dealt st :
  state_seen label_selector w i dealt = Some st ->
  exists mi wi pods wg,
    rounds i label_selector [] w = (Ok mi, wi)
    /\ round_head label_selector wi = (Ok pods, wg)
    /\ for_pods dealt mi wg = st.
Proof.
  unfold state_seen.
  destruct (rounds i label_selector [] w) as [[mi|e] wi]; [|discriminate].
  destruct (round_head label_selector wi) as [[pods|e] wg] eqn:Eg; [|discriminate].
  intros [= <-]. now exists mi, wi, pods, wg.
Qed.

(** The verdict after the not-found error. *)
Lemma status_verdict_of_not_found pod_name w msg w1 :
  get_pod_status pod_name w = (Raise (RuntimeError msg), w1) ->
  status_verdict_of pod_name w = (Ok STATUS_NOT_RUNNING, w1).
Proof. intros E. rewrite status_verdict_of_cases. now rewrite E. Qed.

(** C4: take any round [i] of a session of the sampler and any pod [p]
    of the selector's answer in that round, and let the query by name
    raise its not-found error, the [RuntimeError] of [get_pod_status],
    at the turn of [p].  Then the round goes on past that turn without
    an exception, with [p] stored under its name with the status
    "Not Running".  No [RuntimeError] ever leaves the sampler, whatever
    the cluster answers.  And when the session comes to its end and
    that turn is the last one for the name, the record that is yielded
    for it has the status "Not Running". *)
Theorem not_found_recorded_and_contained label_selector w i before p after m wp
  msg w1 :
  (i < 5)%nat ->
  pods_seen label_selector w i = before ++ p :: after ->
  state_seen label_selector w i before = Some (Ok m, wp) ->
  get_pod_status (name p) wp = (Raise (RuntimeError msg), w1) ->
  state_seen label_selector w i (before ++ [p])
  = Some (Ok (dict_set (name p)
                (mkPodStatus (name p) (ready_status p) "Not Running"
                   (node_name p) (namespace p)) m), w1)
  /\ (forall e w' msg',
        get_pods_summarized_status_iterator label_selector w = (Raise e, w') ->
        e <> RuntimeError msg')
  /\ (forall res w',
        get_pods_summarized_status_iterator label_selector w = (Ok res, w') ->
        List.Forall (fun q => name q <> name p) after ->
        (forall j, (i < j < 5)%nat ->
                   List.Forall (fun q => name q <> name p)
                     (pods_seen label_selector w j)) ->
        List.filter (fun r => String.eqb (name r) (name p)) res
        = [mkPodStatus (name p) (ready_status p) "Not Running"
             (node_name p) (namespace p)]).
Proof.
  intros Hi Hseen Hstate Hq.
  destruct (state_seen_inv _ _ _ _ _ Hstate) as (mi & wi & pods & wg & Ei & Eg & Eb).
  pose proof (status_verdict_of_not_found _ _ _ _ Hq) as Ev.
  split; [|split].
  - rewrite (state_seen_eq _ _ _ _ _ _ _ _ Ei Eg), for_pods_app.
    rewrite (bind_ok _ _ _ _ _ Eb). cbn [for_pods].
    unfold observe. rewrite bind_assoc, (bind_ok _ _ _ _ _ Ev). reflexivity.
  - intros e w' msg' E ->.
    unfold get_pods_summarized_status_iterator in E. unfold bind at 1 in E.
    destruct (rounds 5 label_selector [] w) as [[m5|e5] w5] eqn:E5;
      [cbn in E; discriminate|].
    injection E as -> _.
    destruct (rounds_raises_only _ _ _ _ _ _ E5) as [Habs|[Habs|[Habs|Habs]]];
      discriminate.
  - intros res w' E Hafter Hlater.
    destruct (last_turn_record _ _ _ _ _ _ _ _ E Hi Hseen Hafter Hlater)
      as (mi' & wi' & pods' & wg' & mb & wp' & verdict & wv
          & Ei' & Eg' & Eb' & Ev' & Hres).
    rewrite Ei in Ei'. injection Ei' as <- <-.
    rewrite Eg in Eg'. injection Eg' as <- <-.
    rewrite Eb in Eb'. injection Eb' as <- <-.
    rewrite Ev in Ev'. injection Ev' as <- _.
    exact Hres.
Qed.
End NotFound.

(** ** The further properties at work *)

Lemma getopts_keys_witness :
  let argv := ["cluster-diagnosis"; "-n"; "kube-system"; "-v"]%string in
  let opts := [("-n", Some "kube-system"); ("-v", None)]%string in
  getopts argv = Ok opts
  /\ (options_get "-n" opts <> None <-> In "-n"%string argv /\ is_option "-n" = true).
Proof.
  intros argv opts.
  assert (E : getopts argv = Ok opts) by reflexivity.
  split; [exact E|exact (getopts_keys argv opts "-n" E)].
Defined.

Lemma getopts_last_occurrence_witness :
  let opts := [("-n", Some "kube-system")]%string in
  getopts (["-n"; "default"] ++ "-n" :: ["kube-system"]) = Ok opts
  /\ is_option "-n" = true
  /\ ~ In "-n"%string ["kube-system"%string]
  /\ options_get "-n" opts = Some (List.hd_error ["kube-system"%string]).
Proof.
  intros opts.
  assert (E : getopts (["-n"; "default"] ++ "-n" :: ["kube-system"]) = Ok opts)
    by reflexivity.
  assert (O : is_option "-n" = true) by reflexivity.
  assert (N : ~ In "-n"%string ["kube-system"%string])
    by (intros [Habs|[]]; discriminate).
  split; [exact E|]. split; [exact O|]. split; [exact N|].
  exact (getopts_last_occurrence ["-n"; "default"]%string "-n" ["kube-system"%string]
           opts E O N).
Defined.

Lemma get_nodes_lines_witness :
  let nodes := ["node-1"; "node-2"]%string in
  let w := start [Printed (unlines nodes)] in
  shell get_nodes_cmd (cluster w) = (Printed (unlines nodes), [])
  /\ forallb one_line nodes = true
  /\ get_nodes w = (Ok nodes, mkWorld [] (events w ++ [CheckOutput get_nodes_cmd])).
Proof.
  intros nodes w.
  assert (E : shell get_nodes_cmd (cluster w) = (Printed (unlines nodes), []))
    by reflexivity.
  assert (L : forallb one_line nodes = true) by reflexivity.
  split; [exact E|]. split; [exact L|exact (get_nodes_lines w nodes [] E L)].
Defined.

Lemma get_resource_status_keeps_line_feed_witness :
  let w := start [Printed ("kube-system" ++ " " ++ "cilium" ++ NL)%string] in
  shell (get_resource_status_cmd "daemonset" "cilium" "k8s-app=cilium") (cluster w)
  = (Printed ("kube-system" ++ " " ++ "cilium" ++ NL)%string, [])
  /\ free_of " " "kube-system" = true
  /\ free_of " " "cilium" = true
  /\ fst (get_resource_status "daemonset" "cilium" "k8s-app=cilium" w)
     = Ok (mkResourceStatus "kube-system" ("cilium" ++ NL)%string).
Proof.
  intros w.
  assert (E : shell (get_resource_status_cmd "daemonset" "cilium" "k8s-app=cilium")
                (cluster w)
              = (Printed ("kube-system" ++ " " ++ "cilium" ++ NL)%string, []))
    by reflexivity.
  split; [exact E|]. split; [reflexivity|]. split; [reflexivity|].
  exact (get_resource_status_keeps_line_feed "daemonset" "cilium" "k8s-app=cilium" w
           "kube-system" "cilium" [] E eq_refl eq_refl).
Defined.

Lemma get_pod_status_fields_witness :
  let fields := ["cilium-x7k2p"; "1/1"; "Running"; "node-1"; "kube-system"; "extra"]%string in
  let w := start [Printed (join " " fields)] in
  shell (get_pod_status_cmd "cilium-x7k2p") (cluster w)
  = (Printed (join " " fields), [])
  /\ forallb (free_of " ") fields = true
  /\ fst (get_pod_status "cilium-x7k2p" w)
     = Ok (Some (mkPodStatus "cilium-x7k2p" "1/1" "Running" "node-1" "kube-system")).
Proof.
  intros fields w.
  assert (E : shell (get_pod_status_cmd "cilium-x7k2p") (cluster w)
              = (Printed (join " " fields), [])) by reflexivity.
  split; [exact E|]. split; [reflexivity|].
  exact (get_pod_status_fields "cilium-x7k2p" w "cilium-x7k2p" "1/1" "Running"
           "node-1" "kube-system" ["extra"%string] [] E eq_refl).
Defined.

Lemma get_pod_status_short_output_witness :
  let fields := ["cilium-x7k2p"; "1/1"; "Running"]%string in
  let w := start [Printed (join " " fields)] in
  shell (get_pod_status_cmd "cilium-x7k2p") (cluster w)
  = (Printed (join " " fields), [])
  /\ forallb (free_of " ") fields = true
  /\ join " " fields <> EmptyString
  /\ (length fields < 5)%nat
  /\ fst (get_pod_status "cilium-x7k2p" w) = Raise IndexError.
Proof.
  intros fields w.
  assert (E : shell (get_pod_status_cmd "cilium-x7k2p") (cluster w)
              = (Printed (join " " fields), [])) by reflexivity.
  assert (N : join " " fields <> EmptyString) by discriminate.
  assert (L : (length fields < 5)%nat) by (cbn; lia).
  split; [exact E|]. split; [reflexivity|]. split; [exact N|]. split; [exact L|].
  exact (get_pod_status_short_output "cilium-x7k2p" w fields [] E eq_refl N L).
Defined.

Lemma yielded_pods_pass_the_filter_witness :
  let filtered := ["cilium-x7k2p"]%string in
  let lines := ["cilium-b9wq4 true Running node-2 kube-system";
                "cilium-x7k2p true Running node-1 kube-system"]%string in
  let p := seen_pod "cilium-x7k2p" in
  In p (yields (pods_of_lines filtered lines))
  /\ contains filtered (name p) = true
  /\ exists line more,
       In line lines
       /\ split " " line
          = name p :: ready_status p :: status p :: node_name p :: namespace p :: more.
Proof.
  intros filtered lines p.
  assert (I : In p (yields (pods_of_lines filtered lines))) by (left; reflexivity).
  split; [exact I|exact (yielded_pods_pass_the_filter filtered lines p I)].
Defined.

Lemma selector_lines_raise_on_short_line_witness :
  let filtered := ["cilium-x7k2p"]%string in
  let lines := ["cilium-b9wq4 true"; "cilium-x7k2p true Running"]%string in
  finish (pods_of_lines filtered lines) = Some IndexError
  /\ IndexError = IndexError
  /\ exists line f0 more,
       In line lines
       /\ split " " line = f0 :: more
       /\ contains filtered f0 = true
       /\ (length (split " " line) < 5)%nat.
Proof.
  intros filtered lines.
  assert (F : finish (pods_of_lines filtered lines) = Some IndexError) by reflexivity.
  split; [exact F|exact (selector_lines_raise_on_short_line filtered lines IndexError F)].
Defined.

Lemma group_false_has_a_failing_check_witness :
  let passing : Runnable script := ModuleCheck "nodes are ready" (ret (PyBool true)) in
  let failing : Runnable script := ModuleCheck "cilium pods are running" (ret (PyInt 0)) in
  let checks := [passing; failing; passing] in
  let w' := snd (run (ModuleCheckGroup "sanity" (Some checks)) (start [])) in
  run (ModuleCheckGroup "sanity" (Some checks)) (start []) = (Ok false, w')
  /\ exists before check after wk,
       checks = before ++ check :: after
       /\ passes before (titled "== sanity ==" (start [])) wk
       /\ run check wk = (Ok false, w').
Proof.
  intros passing failing checks w'.
  assert (E : run (ModuleCheckGroup "sanity" (Some checks)) (start []) = (Ok false, w'))
    by reflexivity.
  split; [exact E|exact (group_false_has_a_failing_check "sanity" checks (start []) w' E)].
Defined.

Lemma group_propagates_exception_witness :
  let passing : Runnable script := ModuleCheck "nodes are ready" (ret (PyBool true)) in
  let raising : Runnable script :=
    ModuleCheck "cilium pods are running" (raise (RuntimeError (Fmt "no pod" []))) in
  let w0 := titled "== sanity ==" (start []) in
  let w1 := snd (run passing w0) in
  let w2 := snd (run raising w1) in
  passes [passing] w0 w1
  /\ run raising w1 = (Raise (RuntimeError (Fmt "no pod" [])), w2)
  /\ run (ModuleCheckGroup "sanity" (Some [passing; raising; passing])) (start [])
     = (Raise (RuntimeError (Fmt "no pod" [])), w2).
Proof.
  intros passing raising w0 w1 w2.
  assert (P : passes [passing] w0 w1)
    by (eapply passes_cons; [reflexivity|apply passes_nil]).
  assert (E : run raising w1 = (Raise (RuntimeError (Fmt "no pod" [])), w2))
    by reflexivity.
  split; [exact P|]. split; [exact E|].
  exact (group_propagates_exception "sanity" [passing] raising [passing] (start [])
           w1 (RuntimeError (Fmt "no pod" [])) w2 P E).
Defined.

Lemma add_all_appends_in_order_witness :
  let first : Runnable script := ModuleCheck "nodes are ready" (ret (PyBool true)) in
  let second : Runnable script := ModuleCheck "cilium pods are running" (ret PyNone) in
  let heap : list (Runnable script) := [first; default_group "sanity"] in
  heap !! 1%nat = Some (default_group "sanity")
  /\ [first; second] <> []
  /\ forallb is_module_check [first; second] = true
  /\ fst (add_all 1 [first; second] heap) = Ok 1%nat
  /\ snd (add_all 1 [first; second] heap) !! 1%nat
     = Some (ModuleCheckGroup "sanity" (Some [first; second]))
  /\ fst (run_at 1 (snd (add_all 1 [first; second] heap)) (start [])) = Ok false.
Proof.
  intros first second heap.
  assert (L : heap !! 1%nat = Some (default_group "sanity")) by reflexivity.
  assert (N : [first; second] <> []) by discriminate.
  assert (K : forallb is_module_check [first; second] = true) by reflexivity.
  destruct (add_all_appends_in_order 1 "sanity" [first; second] heap L N K)
    as (Hfst & Hsnd & Hrun).
  split; [exact L|]. split; [exact N|]. split; [exact K|].
  split; [exact Hfst|]. split; [exact Hsnd|].
  rewrite Hrun. reflexivity.
Defined.


Lemma sampler_yields_seen_pods_once_witness :
  let w := start vanishing_session in
  let res := [with_verdict (seen_pod "cilium-x7k2p") "CrashLoopBackOff";
              with_verdict (seen_pod "cilium-b9wq4") "Running"] in
  let w' := snd (get_pods_summarized_status_iterator "k8s-app=cilium" w) in
  get_pods_summarized_status_iterator "k8s-app=cilium" w = (Ok res, w')
  /\ List.NoDup (map name res)
  /\ forall r, In r res ->
       exists i p verdict,
         (i < 5)%nat
         /\ In p (pods_seen "k8s-app=cilium" w i)
         /\ r = with_verdict p verdict.
Proof.
  intros w res w'.
  assert (E : get_pods_summarized_status_iterator "k8s-app=cilium" w = (Ok res, w'))
    by (vm_compute; reflexivity).
  split; [exact E|exact (sampler_yields_seen_pods_once "k8s-app=cilium" w res w' E)].
Defined.

Lemma sampler_without_pods_witness :
  let w : World empty_cluster := mkWorld Empty [] in
  (forall c : empty_cluster,
      exists c', shell (selector_cmd "k8s-app=cilium") c = (Printed EmptyString, c'))
  /\ exists w',
       get_pods_summarized_status_iterator "k8s-app=cilium" w = (Ok [], w')
       /\ events w'
          = events w ++ concat (repeat (round_events "k8s-app=cilium" []) 5)
              ++ [StdoutWrite NL; StdoutFlush].
Proof.
  intros w.
  assert (S : forall c : empty_cluster,
             exists c', shell (selector_cmd "k8s-app=cilium") c
                        = (Printed EmptyString, c'))
    by (intros c; exists c; reflexivity).
  split; [exact S|exact (sampler_without_pods "k8s-app=cilium" w S)].
Defined.

(** The session in which the pod is not found in the fifth round. *)
Lemma not_found_recorded_and_contained_witness :
  let w := start not_found_session in
  let p := seen_pod "cilium-x7k2p" in
  let sentinel := mkPodStatus "cilium-x7k2p" "true" "Not Running" "node-1" "kube-system" in
  let m := [("cilium-x7k2p", mkPodStatus "cilium-x7k2p" "true" "Running" "node-1"
                               "kube-system")] in
  let wp := snd (round_head "k8s-app=cilium" (snd (rounds 4 "k8s-app=cilium" [] w))) in
  let msg := Fmt "pod {} is not running on the cluster" [AStr "cilium-x7k2p"] in
  let w1 := snd (get_pod_status (name p) wp) in
  (4 < 5)%nat
  /\ pods_seen "k8s-app=cilium" w 4 = [] ++ p :: []
  /\ state_seen "k8s-app=cilium" w 4 [] = Some (Ok m, wp)
  /\ get_pod_status (name p) wp = (Raise (RuntimeError msg), w1)
  /\ state_seen "k8s-app=cilium" w 4 ([] ++ [p])
     = Some (Ok (dict_set (name p) sentinel m), w1)
  /\ fst (get_pods_summarized_status_iterator "k8s-app=cilium" w) = Ok [sentinel]
  /\ List.filter (fun r => String.eqb (name r) (name p)) [sentinel] = [sentinel].
Proof.
  intros w p sentinel m wp msg w1.
  assert (L : (4 < 5)%nat) by lia.
  assert (S : pods_seen "k8s-app=cilium" w 4 = [] ++ p :: [])
    by (vm_compute; reflexivity).
  assert (T : state_seen "k8s-app=cilium" w 4 [] = Some (Ok m, wp))
    by (vm_compute; reflexivity).
  assert (Q : get_pod_status (name p) wp = (Raise (RuntimeError msg), w1))
    by (vm_compute; reflexivity).
  assert (E : get_pods_summarized_status_iterator "k8s-app=cilium" w
              = (Ok [sentinel],
                 snd (get_pods_summarized_status_iterator "k8s-app=cilium" w)))
    by (vm_compute; reflexivity).
  destruct (not_found_recorded_and_contained "k8s-app=cilium" w 4 [] p [] m wp msg w1
              L S T Q) as (Hturn & _ & Hend).
  split; [exact L|]. split; [exact S|]. split; [exact T|]. split; [exact Q|].
  split; [exact Hturn|]. split; [now rewrite E|].
  apply (Hend _ _ E); [constructor|intros j Hj; lia].
Defined.
